(** * A3C experience accumulation and batching (algos/a3c_atari.py)

    Shallow embedding of [Player.play], [Player._memory_to_samples] and
    [generate_batches].  Python objects that the file only talks to through
    method calls (the gym environment, the Keras run model, numpy's random
    generator, float arithmetic) are interfaces; everything the file itself
    computes is a definition below. *)

From Stdlib Require Import List ZArith Lia Bool QArith.
Import ListNotations.
Local Open Scope Z_scope.

Set Implicit Arguments.

(** ** Interfaces of the external collaborators *)

(** Python numbers met by the code: [0.0], [+], [-], [*] and [int(x)].
    No law is assumed unless a theorem states it as a hypothesis, so the
    statements hold for IEEE doubles, numpy float32 values and exact
    rationals alike.  Python's [int] raises on NaN and on the infinities;
    [to_int] is [int] on the finite values, and the statements that a
    step returns are about runs whose reward sum is finite. *)
Class Numeric (Num : Type) := {
  nzero : Num;
  nadd : Num -> Num -> Num;
  nsub : Num -> Num -> Num;
  nmul : Num -> Num -> Num;
  to_int : Num -> Z
}.

(** [env.reset()] and [env.step(action)]; the fourth component of the
    step result ([info]) is dropped by the caller and is not modelled. *)
Class Environment (Env Obs Num : Type) := {
  env_reset : Env -> Obs * Env;
  env_step : Env -> Z -> Obs * Num * bool * Env
}.

(** [model.predict_on_batch([np.array([state])])] read at [probs[0]] and
    [value[0][0]], and [np.random.choice(len(probs), p=probs)]. *)
Class Policy (Weights Rng Obs Num : Type) := {
  predict_on_batch : Weights -> Obs -> list Num * Num;
  random_choice : Rng -> list Num -> Z * Rng
}.

(** [list.pop()]: raises [IndexError] on the empty list. *)
Definition list_pop {A : Type} (l : list A) : option (list A * A) :=
  match rev l with
  | [] => None
  | x :: r => Some (rev r, x)
  end.

(** Python slices [l[:n]] and [l[n:]] for an integer [n] of any sign. *)
Definition slice_to {A : Type} (l : list A) (n : Z) : list A :=
  if n <? 0 then firstn (Z.to_nat (Z.of_nat (length l) + n)) l
  else firstn (Z.to_nat n) l.

Definition slice_from {A : Type} (l : list A) (n : Z) : list A :=
  if n <? 0 then skipn (Z.to_nat (Z.of_nat (length l) + n)) l
  else skipn (Z.to_nat n) l.

Section A3C.

Context {Num Obs Env Weights Rng : Type}.
Context {numeric : Numeric Num}.
Context {environment : Environment Env Obs Num}.
Context {policy : Policy Weights Rng Obs Num}.

(** ** Data model *)

(** [(state, action, reward, value)] as appended to [self.memory]. *)
Definition Transition : Type := Obs * Z * Num * Num.

(** [(state, action, R, advantage)] as appended to [result]. *)
Definition Sample : Type := Obs * Z * Num * Num.

Definition t_state (t : Transition) : Obs := fst (fst (fst t)).
Definition t_action (t : Transition) : Z := snd (fst (fst t)).
Definition t_reward (t : Transition) : Num := snd (fst t).
Definition t_value (t : Transition) : Num := snd t.

Definition s_state (s : Sample) : Obs := fst (fst (fst s)).
Definition s_action (s : Sample) : Z := snd (fst (fst s)).
Definition s_return (s : Sample) : Num := snd (fst s).
Definition s_advantage (s : Sample) : Num := snd s.

(** The attributes of a [Player].  [self.model] is the one run model
    shared by all players; its weights live in the [World].
    [flush_trace] is a ghost field: it records the [is_done] argument of
    every call of [_memory_to_samples] and is read by no definition. *)
Record Player : Type := mkPlayer {
  env : Env;
  reward_steps : Z;
  gamma : Num;
  state : Obs;
  memory : list Transition;
  episode_reward : Num;
  step_index : Z;
  max_steps : Z;
  player_index : Z;
  flush_trace : list bool
}.

(** Process-wide state touched by [play]: the run model's weights, numpy's
    global generator and the root logger's output, one record
    [(player_index, step_index, int(episode_reward))] per message. *)
Record World : Type := mkWorld {
  weights : Weights;
  rng : Rng;
  log : list (Z * Z * Z)
}.

Definition set_memory (p : Player) (m : list Transition) (tr : list bool) : Player :=
  mkPlayer (env p) (reward_steps p) (gamma p) (state p) m (episode_reward p)
           (step_index p) (max_steps p) (player_index p) tr.

Definition set_state (p : Player) (s : Obs) : Player :=
  mkPlayer (env p) (reward_steps p) (gamma p) s (memory p) (episode_reward p)
           (step_index p) (max_steps p) (player_index p) (flush_trace p).

(** [Player.__init__] *)
Definition init_player (e : Env) (rs : Z) (g : Num) (ms idx : Z) : Player :=
  let '(s, e') := env_reset e in
  mkPlayer e' rs g s [] nzero 0 ms idx [].

(** ** [_memory_to_samples] *)

(** The [for ... in reversed(self.memory)] loop, [items] being the
    reversed memory and [result] the list built by [append]. *)
Fixpoint samples_loop (g R : Num) (items : list Transition) (result : list Sample)
  : list Sample :=
  match items with
  | [] => result
  | (s, action, reward, value) :: rest =>
      let R' := nadd reward (nmul R g) in
      let advantage := nsub R' value in
      samples_loop g R' rest (result ++ [(s, action, R', advantage)])
  end.

(** The value of [R] when that loop ends. *)
Fixpoint loop_return (g R : Num) (items : list Transition) : Num :=
  match items with
  | [] => R
  | (_, _, reward, _) :: rest => loop_return g (nadd reward (nmul R g)) rest
  end.

Definition memory_to_samples (p : Player) (is_done : bool)
  : option (Player * list Sample) :=
  if is_done then
    let result := samples_loop (gamma p) nzero (rev (memory p)) [] in
    Some (set_memory p [] (flush_trace p ++ [is_done]), result)
  else
    match list_pop (memory p) with
    | None => None
    | Some (mem, last_item) =>
        let R := snd last_item in
        let result := samples_loop (gamma p) R (rev mem) [] in
        Some (set_memory p [last_item] (flush_trace p ++ [is_done]), result)
    end.

(** ** [play] *)

(** Lines 45-55 of one loop iteration: count the step, query the model,
    draw the action, step the environment, add the reward and append the
    transition.  Returns the player together with [new_state] and [done]. *)
Definition record_step (p : Player) (w : World) : Player * World * Obs * bool :=
  let idx := step_index p + 1 in
  let '(probs, value) := predict_on_batch (weights w) (state p) in
  let '(action, rng') := random_choice (rng w) probs in
  let '(new_state, reward, done, env') := env_step (env p) action in
  (mkPlayer env' (reward_steps p) (gamma p) (state p)
            (memory p ++ [(state p, action, reward, value)])
            (nadd (episode_reward p) reward)
            idx (max_steps p) (player_index p) (flush_trace p),
   mkWorld (weights w) rng' (log w),
   new_state, done).

(** Lines 57-68: the [if]/[elif] and the final [self.state = new_state].
    The boolean of the result tells whether [break] was executed. *)
Definition settle_step (p : Player) (w : World) (new_state : Obs) (done : bool)
  : option (Player * World * list Sample * bool) :=
  if done || (max_steps p <? step_index p) then
    let '(s0, env') := env_reset (env p) in
    let w' := mkWorld (weights w) (rng w)
                (log w ++ [(player_index p, step_index p, to_int (episode_reward p))]) in
    let p' := mkPlayer env' (reward_steps p) (gamma p) s0 (memory p) nzero 0
                (max_steps p) (player_index p) (flush_trace p) in
    match memory_to_samples p' done with
    | None => None
    | Some (p'', smp) => Some (p'', w', smp, true)
    end
  else if Z.of_nat (length (memory p)) =? reward_steps p + 1 then
    match memory_to_samples p false with
    | None => None
    | Some (p', smp) => Some (set_state p' new_state, w, smp, false)
    end
  else Some (set_state p new_state, w, [], false).

Definition play_step (p : Player) (w : World)
  : option (Player * World * list Sample * bool) :=
  let '(p1, w1, new_state, done) := record_step p w in
  settle_step p1 w1 new_state done.

(** The [for _ in range(steps)] loop with its [result] accumulator. *)
Fixpoint play_loop (n : nat) (p : Player) (w : World) (result : list Sample)
  : option (Player * World * list Sample) :=
  match n with
  | O => Some (p, w, result)
  | S n' =>
      match play_step p w with
      | None => None
      | Some (p', w', smp, brk) =>
          if brk then Some (p', w', result ++ smp)
          else play_loop n' p' w' (result ++ smp)
      end
  end.

Definition play (p : Player) (w : World) (steps : Z)
  : option (Player * World * list Sample) :=
  play_loop (Z.to_nat steps) p w [].

(** ** [generate_batches] *)

(** [[states, actions, advantages], [rewards, rewards]] *)
Definition Batch : Type := (list Obs * list Z * list Num) * (list Num * list Num).

(** [zip( *rows )] on rows of four fields: the four columns. *)
Fixpoint zip_star (rows : list Sample) : list Obs * list Z * list Num * list Num :=
  match rows with
  | [] => ([], [], [], [])
  | (s, a, r, adv) :: rest =>
      let '(ss, aa, rr, dd) := zip_star rest in
      (s :: ss, a :: aa, r :: rr, adv :: dd)
  end.

(** Lines 101-102.  [zip] of no rows is empty, and unpacking an empty list
    into four names raises [ValueError]. *)
Definition make_batch (rows : list Sample) : option Batch :=
  match rows with
  | [] => None
  | _ :: _ =>
      let '(states, actions, rewards, advantages) := zip_star rows in
      Some ((states, actions, advantages), (rewards, rewards))
  end.

(** The locals of the generator frame.  The players are the caller's
    objects, mutated in place; the generator is their only user. *)
Record GenState : Type := mkGen {
  g_players : list Player;
  g_world : World;
  g_samples : list Sample
}.

(** What running the generator up to its next suspension gives: a batch
    and the frame suspended at the [yield], an exception, or no [yield]
    within the given number of rounds. *)
Inductive Outcome : Type :=
| Yield (b : Batch) (st : GenState)
| Raise
| Starved.

(** [for player in players: samples.extend(player.play(1))]; [played]
    collects the players already advanced in this round. *)
Fixpoint play_round (todo played : list Player) (w : World) (samples : list Sample)
  : option (list Player * World * list Sample) :=
  match todo with
  | [] => Some (played, w, samples)
  | p :: rest =>
      match play p w 1 with
      | None => None
      | Some (p', w', smp) => play_round rest (played ++ [p']) w' (samples ++ smp)
      end
  end.

(** The test of the inner [while] and, when it holds, lines 101-102. *)
Definition emit (batch_size : Z) (st : GenState) : option Outcome :=
  if batch_size <=? Z.of_nat (length (g_samples st)) then
    match make_batch (slice_to (g_samples st) batch_size) with
    | Some b => Some (Yield b st)
    | None => Some Raise
    end
  else None.

(** From the top of [while True] to the next [yield]; [fuel] bounds the
    number of rounds. *)
Fixpoint gen_rounds (fuel : nat) (batch_size : Z) (st : GenState) : Outcome :=
  match fuel with
  | O => Starved
  | S fuel' =>
      match play_round (g_players st) [] (g_world st) (g_samples st) with
      | None => Raise
      | Some (ps, w, pool) =>
          let st' := mkGen ps w pool in
          match emit batch_size st' with
          | Some o => o
          | None => gen_rounds fuel' batch_size st'
          end
      end
  end.

(** Resuming a frame suspended at the [yield]: line 103, then the inner
    test again. *)
Definition gen_resume (fuel : nat) (batch_size : Z) (st : GenState) : Outcome :=
  let st' := mkGen (g_players st) (g_world st) (slice_from (g_samples st) batch_size) in
  match emit batch_size st' with
  | Some o => o
  | None => gen_rounds fuel batch_size st'
  end.

(** The first [next()] on [generate_batches(players, batch_size)]. *)
Definition generate_batches (fuel : nat) (players : list Player) (w : World)
  (batch_size : Z) : Outcome :=
  gen_rounds fuel batch_size (mkGen players w []).

(** ** Definitions that follow the specification's wording *)

(** The return of the first transition of [seg]:
    [R_t = reward_t + gamma * R_{t+1}], with [seed] after the last one. *)
Fixpoint spec_return (g seed : Num) (seg : list Transition) : Num :=
  match seg with
  | [] => seed
  | t :: rest => nadd (t_reward t) (nmul g (spec_return g seed rest))
  end.

(** The sample of a transition given its return: return label [R],
    advantage [R - value_estimate]. *)
Definition sample_of (t : Transition) (R : Num) : Sample :=
  (t_state t, t_action t, R, nsub R (t_value t)).

(** The samples of a consumed segment, oldest transition first. *)
Fixpoint spec_samples (g seed : Num) (seg : list Transition) : list Sample :=
  match seg with
  | [] => []
  | t :: rest => sample_of t (spec_return g seed seg) :: spec_samples g seed rest
  end.

(** One round as the specification tells it: every player is advanced
    by [play(1)], player 0 first, each in the world its predecessors left.
    The result is the players after their step, in the same order, the
    world the last of them left, and what each handed over. *)
Fixpoint round_advance (ps : list Player) (w : World)
  : option (list Player * World * list (list Sample)) :=
  match ps with
  | [] => Some ([], w, [])
  | p :: rest =>
      match play p w 1 with
      | None => None
      | Some (p', w', smp) =>
          match round_advance rest w' with
          | None => None
          | Some (ps', w'', outs) => Some (p' :: ps', w'', smp :: outs)
          end
      end
  end.

(** [st'] is [st] after one round: its players and world are those the
    round leaves, and its pool is the pool of [st] followed by the
    players' outputs, in player order. *)
Definition round_of (st st' : GenState) : Prop :=
  exists outs,
    round_advance (g_players st) (g_world st) =
      Some (g_players st', g_world st', outs) /\
    length outs = length (g_players st) /\
    g_samples st' = g_samples st ++ concat outs.

(** One or more rounds, all but the last of which leave the pool below
    [batch_size]. *)
Inductive after_rounds (batch_size : Z) : GenState -> GenState -> Prop :=
| rounds_last : forall st st',
    round_of st st' -> after_rounds batch_size st st'
| rounds_next : forall st st1 st',
    round_of st st1 ->
    Z.of_nat (length (g_samples st1)) < batch_size ->
    after_rounds batch_size st1 st' ->
    after_rounds batch_size st st'.

(** A step of [play] that calls [_memory_to_samples], seen on the ghost
    trace; [quiet] is a step that does not. *)
Definition flushed_with (p p' : Player) (is_done : bool) : Prop :=
  flush_trace p' = flush_trace p ++ [is_done].

Definition quiet (p p' : Player) : Prop := flush_trace p' = flush_trace p.

(** The specification's reading of a step cut short by the step budget
    alone ([done] is [False]): the flush is terminal, so the trace records
    [True], nothing is kept, and the samples are those of the whole memory
    seeded with [0.0]. *)
Definition truncation_flushes_terminal (p : Player) (w : World) : Prop :=
  forall p1 w1 new_state p' w' smp brk,
    record_step p w = (p1, w1, new_state, false) ->
    max_steps p1 < step_index p1 ->
    play_step p w = Some (p', w', smp, brk) ->
    flushed_with p p' true /\
    memory p' = [] /\
    smp = samples_loop (gamma p) nzero (rev (memory p1)) [].

(** The specification's bound on the memory. *)
Definition memory_within_bound (p : Player) : Prop :=
  Z.of_nat (length (memory p)) <= reward_steps p + 1.

(** Player states that [__init__] followed by any number of loop
    iterations of [play] can produce, whatever the rest of the program
    does to the world in between. *)
Inductive reachable (e : Env) (rs : Z) (g : Num) (ms idx : Z) : Player -> Prop :=
| reach_init : reachable e rs g ms idx (init_player e rs g ms idx)
| reach_step : forall p w p' w' smp brk,
    reachable e rs g ms idx p ->
    play_step p w = Some (p', w', smp, brk) ->
    reachable e rs g ms idx p'.

(** Consecutive loop iterations of one player none of which flushes. *)
Inductive quiet_steps : Player -> Player -> Prop :=
| quiet_refl : forall p, quiet_steps p p
| quiet_more : forall p w p' w' smp brk p'',
    play_step p w = Some (p', w', smp, brk) ->
    quiet p p' ->
    quiet_steps p' p'' ->
    quiet_steps p p''.

End A3C.

(** ** A concrete instance: exact rationals and a counting environment *)

Module Demo.

Definition qtrunc (q : Q) : Z := Z.quot (Qnum q) (Zpos (Qden q)).

#[export] Instance q_numeric : Numeric Q := {|
  nzero := 0%Q;
  nadd := fun a b => Qred (a + b);
  nsub := fun a b => Qred (a - b);
  nmul := fun a b => Qred (a * b);
  to_int := qtrunc
|}.

(** An environment that counts its steps: the observation is the step
    number, every reward is 1, and the episode is done at step [limit]. *)
Record Counter : Type := mkCounter { limit : Z; ticks : Z }.

#[export] Instance counter_env : Environment Counter Z Q := {|
  env_reset := fun e => (0, mkCounter (limit e) 0);
  env_step := fun e _ =>
    let n := ticks e + 1 in
    (n, 1%Q, limit e <=? n, mkCounter (limit e) n)
|}.

(** A model with a uniform policy over two actions whose value estimate
    is a tenth of the observation, and a generator that alternates. *)
#[export] Instance demo_policy : Policy unit Z Z Q := {|
  predict_on_batch := fun _ s => ([1 # 2; 1 # 2]%Q, Qred (inject_Z s / 10));
  random_choice := fun r probs => (r mod Z.of_nat (length probs), r + 1)
|}.

Definition world0 : @World unit Z := mkWorld tt 0 [].

(** A new player with [gamma = 1/2] on an environment whose episodes
    last [lim] steps. *)
Definition fresh (lim rs ms : Z) : @Player Q Z Counter :=
  init_player (mkCounter lim 0) rs (1 # 2)%Q ms 0.

(** That player and the world after [play(steps)]. *)
Definition advanced (lim rs ms steps : Z) : @Player Q Z Counter * @World unit Z :=
  match play (fresh lim rs ms) world0 steps with
  | Some (p, w, _) => (p, w)
  | None => (fresh lim rs ms, world0)
  end.

(** Two players with a two-step horizon, and what the first [next()] on
    their generator gives for batches of three. *)
Definition two_players : list (@Player Q Z Counter) :=
  [fresh 100 2 40000; fresh 100 2 40000].

Definition first_yield : @Outcome Q Z Counter unit Z :=
  generate_batches 5 two_players world0 3.

Definition yielded_batch (o : @Outcome Q Z Counter unit Z) : @Batch Q Z :=
  match o with
  | Yield b _ => b
  | _ => (([], [], []), ([], []))
  end.

Definition yielded_state (o : @Outcome Q Z Counter unit Z)
  : @GenState Q Z Counter unit Z :=
  match o with
  | Yield _ st => st
  | _ => mkGen [] world0 []
  end.

(** The segment of the specification's scenario, observations 0, 1, 2. *)
Definition scenario : list (Z * Z * Q * Q) :=
  [(0, 0, 1%Q, (1 # 2)%Q); (1, 1, 2%Q, (3 # 10)%Q); (2, 2, 3%Q, (1 # 10)%Q)].

Definition scenario_player : @Player Q Z Counter :=
  mkPlayer (mkCounter 100 3) 5 (1 # 2)%Q 3 scenario 6%Q 3 40000 0 [].

(** The player and the samples after a terminal flush of the scenario. *)
Definition scenario_flushed : @Player Q Z Counter * list (Z * Z * Q * Q) :=
  match memory_to_samples scenario_player true with
  | Some r => r
  | None => (scenario_player, [])
  end.

(** A player with a budget of two steps per episode, two steps into its
    first episode, and the world at that point. *)
Definition at_budget : @Player Q Z Counter := fst (advanced 100 5 2 2).
Definition at_budget_world : @World unit Z := snd (advanced 100 5 2 2).

(** A new player on one-step episodes. *)
Definition short_lived : @Player Q Z Counter := fresh 1 5 40000.

(** The components of [record_step]'s result. *)
Definition rec_player (p : @Player Q Z Counter) (w : @World unit Z) :=
  fst (fst (fst (record_step p w))).
Definition rec_world (p : @Player Q Z Counter) (w : @World unit Z) :=
  snd (fst (fst (record_step p w))).
Definition rec_state (p : @Player Q Z Counter) (w : @World unit Z) :=
  snd (fst (record_step p w)).

End Demo.
(** * The driver: module constants and [__main__] *)

Definition PLAYERS_COUNT : Z := 50.
Definition BATCH_SIZE : Z := 128.
Definition SYNC_MODEL_EVERY_BATCH : Z := 1.
Definition SAVE_MODEL_EVERY_BATCH : Z := 3000.

(** What the body of the training loop does after [train_on_batch]. *)
Inductive Chore : Type :=
| WriteSummaries
| SyncModel
| SaveModel.

(** Lines 170-180: the three [if]s of iteration [iter_idx], in order.
    Python's [%] with a positive divisor is [Z.modulo]. *)
Definition chores (iter_idx : Z) : list Chore :=
  (if iter_idx mod 2 =? 0 then [WriteSummaries] else []) ++
  (if iter_idx mod SYNC_MODEL_EVERY_BATCH =? 0 then [SyncModel] else []) ++
  (if (iter_idx mod SAVE_MODEL_EVERY_BATCH =? 0) && (0 <? iter_idx)
   then [SaveModel] else []).

Section Driver.

Context {Num Obs Env Weights Rng : Type}.
Context {numeric : Numeric Num}.
Context {environment : Environment Env Obs Num}.
Context {policy : Policy Weights Rng Obs Num}.

(** Lines 151-153: one player per index of [range(PLAYERS_COUNT)], each
    on the environment [make_env] returns for it ([envs idx]), with
    [reward_steps=args.steps], [gamma=args.gamma] and [max_steps=40000]. *)
Definition main_players (envs : Z -> Env) (steps : Z) (g : Num)
  : list (@Player Num Obs Env) :=
  map (fun idx => init_player (envs idx) steps g 40000 idx)
      (map Z.of_nat (seq 0 (Z.to_nat PLAYERS_COUNT))).

(** The attributes [__init__] sets once and for all. *)
Definition configuration (p : @Player Num Obs Env) : Z * Z * Z * Num :=
  (player_index p, reward_steps p, max_steps p, gamma p).

(** A player between two iterations whose memory is within its horizon. *)
Definition settled (p : @Player Num Obs Env) : Prop :=
  1 <= reward_steps p /\ Z.of_nat (length (memory p)) <= reward_steps p.

End Driver.

(** ** Concrete runs of the driver and of [play] *)

Module DemoRuns.

Import Demo.

(** The step of [at_budget] that exceeds its budget. *)
Definition budget_step
  : @Player Q Z Counter * @World unit Z * list (Z * Z * Q * Q) * bool :=
  match play_step at_budget at_budget_world with
  | Some r => r
  | None => (at_budget, at_budget_world, [], false)
  end.

(** [play(7)] on a new player with a budget of two steps per episode. *)
Definition seven_steps : @Player Q Z Counter * @World unit Z * list (Z * Z * Q * Q) :=
  match play (fresh 100 5 2) world0 7 with
  | Some r => r
  | None => (fresh 100 5 2, world0, [])
  end.

(** A player with horizon 2 after two steps: its next step fills the
    memory. *)
Definition nearly_full : @Player Q Z Counter := fst (advanced 100 2 40000 2).
Definition nearly_full_world : @World unit Z := snd (advanced 100 2 40000 2).

(** The players of [__main__] on counting environments with
    [--steps 5 --gamma 0.5], and the first [next()] on their generator. *)
Definition demo_main_players : list (@Player Q Z Counter) :=
  main_players (fun _ => mkCounter 100 0) 5 (1 # 2)%Q.

Definition main_yield : @Outcome Q Z Counter unit Z :=
  generate_batches 6 demo_main_players world0 BATCH_SIZE.

(** Three players on one-step episodes, and the first [next()] on their
    generator for [batch_size = -1]. *)
Definition three_short : list (@Player Q Z Counter) :=
  [short_lived; short_lived; short_lived].

Definition negative_yield : @Outcome Q Z Counter unit Z :=
  generate_batches 1 three_short world0 (-1).

(** A player with horizon 5 after five steps, whose next step fills the
    memory, and that step. *)
Definition five_in : @Player Q Z Counter := fst (advanced 100 5 40000 5).
Definition five_in_world : @World unit Z := snd (advanced 100 5 40000 5).

Definition sixth_step
  : @Player Q Z Counter * @World unit Z * list (Z * Z * Q * Q) * bool :=
  match play_step five_in five_in_world with
  | Some r => r
  | None => (five_in, five_in_world, [], false)
  end.

End DemoRuns.

(** * Properties *)

Unset Implicit Arguments.

Section A3C_Properties.

Context {Num Obs Env Weights Rng : Type}.
Context {numeric : Numeric Num}.
Context {environment : Environment Env Obs Num}.
Context {policy : Policy Weights Rng Obs Num}.

Local Abbreviation Transition := (@Transition Num Obs).
Local Abbreviation Sample := (@Sample Num Obs).
Local Abbreviation Player := (@Player Num Obs Env).
Local Abbreviation World := (@World Weights Rng).
Local Abbreviation GenState := (@GenState Num Obs Env Weights Rng).
Local Abbreviation Batch := (@Batch Num Obs).

(** ** Lists *)

Lemma list_pop_snoc (A : Type) (body : list A) (x : A) :
  list_pop (body ++ [x]) = Some (body, x).
Proof.
  unfold list_pop. rewrite rev_app_distr. simpl. now rewrite rev_involutive.
Qed.

Lemma snoc_cases (A : Type) (l : list A) :
  l = [] \/ exists body x, l = body ++ [x].
Proof.
  destruct l as [|a l] using rev_ind; [now left | right; eauto].
Qed.

(** ** The sample loop *)

Lemma samples_loop_acc (g : Num) (items : list Transition) :
  forall R result,
    samples_loop g R items result = result ++ samples_loop g R items [].
Proof.
  induction items as [|[[[s a] r] v] rest IH]; intros R result; simpl.
  - now rewrite app_nil_r.
  - rewrite IH. rewrite (IH _ [_]). now rewrite app_assoc.
Qed.

Lemma samples_loop_length (g : Num) (items : list Transition) :
  forall R, length (samples_loop g R items []) = length items.
Proof.
  induction items as [|[[[s a] r] v] rest IH]; intros R; simpl; [reflexivity|].
  rewrite samples_loop_acc, length_app, IH. simpl. lia.
Qed.

(** Position by position, the loop's output is derived from the items
    it walked over, in the order it walked them. *)
Lemma samples_loop_derived (g : Num) (items : list Transition) :
  forall R,
    Forall2 (fun s t => exists R', s = sample_of t R')
            (samples_loop g R items []) items.
Proof.
  induction items as [|[[[s a] r] v] rest IH]; intros R; simpl; [constructor|].
  rewrite samples_loop_acc. simpl. constructor; [|apply IH].
  eexists. unfold sample_of. reflexivity.
Qed.

Lemma samples_loop_snoc (g : Num) (items : list Transition) (t : Transition) :
  forall R acc,
    samples_loop g R (items ++ [t]) acc =
    samples_loop g R items acc ++
      [sample_of t (nadd (t_reward t) (nmul (loop_return g R items) g))].
Proof.
  induction items as [|[[[s a] r] v] rest IH]; intros R acc; simpl.
  - destruct t as [[[s a] r] v]. reflexivity.
  - apply IH.
Qed.

Lemma loop_return_snoc (g : Num) (items : list Transition) (t : Transition) :
  forall R,
    loop_return g R (items ++ [t]) =
    nadd (t_reward t) (nmul (loop_return g R items) g).
Proof.
  induction items as [|[[[s a] r] v] rest IH]; intros R; simpl.
  - destruct t as [[[s a] r] v]. reflexivity.
  - apply IH.
Qed.

(** ** [_memory_to_samples] *)

Lemma flush_done (p : Player) :
  memory_to_samples p true =
  Some (set_memory p [] (flush_trace p ++ [true]),
        samples_loop (gamma p) nzero (rev (memory p)) []).
Proof. reflexivity. Qed.

Lemma flush_bootstrap (p : Player) (body : list Transition) (last_item : Transition) :
  memory p = body ++ [last_item] ->
  memory_to_samples p false =
  Some (set_memory p [last_item] (flush_trace p ++ [false]),
        samples_loop (gamma p) (t_value last_item) (rev body) []).
Proof.
  intros Hm. unfold memory_to_samples. now rewrite Hm, list_pop_snoc.
Qed.

(** Every successful flush splits the memory into what it consumed and
    what it kept. *)
Lemma flush_inv (p p' : Player) (is_done : bool) (samples : list Sample) :
  memory_to_samples p is_done = Some (p', samples) ->
  exists consumed seed,
    memory p = consumed ++ memory p' /\
    p' = set_memory p (memory p') (flush_trace p ++ [is_done]) /\
    samples = samples_loop (gamma p) seed (rev consumed) [] /\
    (if is_done then memory p' = [] /\ seed = nzero
     else exists last_item, memory p' = [last_item] /\ seed = t_value last_item).
Proof.
  destruct is_done.
  - rewrite flush_done. intros [= <- <-]. exists (memory p), nzero. simpl.
    now rewrite app_nil_r.
  - destruct (snoc_cases _ (memory p)) as [He | (body & x & Hm)].
    + unfold memory_to_samples, list_pop. rewrite He. discriminate.
    + rewrite (flush_bootstrap _ _ _ Hm). intros [= <- <-].
      exists body, (t_value x). simpl. repeat split; eauto.
Qed.

(** C3. For a segment of length L >= 1, a terminal flush returns exactly
    L samples and leaves the memory empty; a non-terminal flush returns
    exactly L-1 samples and leaves exactly the popped last transition,
    unchanged; with L = 1 the non-terminal flush returns no sample and
    keeps the single transition. *)
Theorem flush_sizes (p : Player) (is_done : bool) :
  (1 <= length (memory p))%nat ->
  exists p' samples,
    memory_to_samples p is_done = Some (p', samples) /\
    (if is_done
     then length samples = length (memory p) /\ memory p' = []
     else length samples = (length (memory p) - 1)%nat /\
          exists body last_item,
            memory p = body ++ [last_item] /\ memory p' = [last_item]) /\
    (forall t, memory p = [t] -> is_done = false ->
               samples = [] /\ memory p' = [t]).
Proof.
  intros HL. destruct is_done.
  - rewrite flush_done. do 2 eexists. split; [reflexivity|]. simpl.
    rewrite samples_loop_length, length_rev. repeat split; discriminate.
  - destruct (snoc_cases _ (memory p)) as [He | (body & x & Hm)].
    + rewrite He in HL. simpl in HL. lia.
    + rewrite (flush_bootstrap _ _ _ Hm). do 2 eexists. split; [reflexivity|].
      simpl. rewrite samples_loop_length, length_rev, Hm, length_app. simpl.
      split; [split; [lia | eauto]|].
      intros t Ht _. destruct body as [|b body].
      * simpl in Ht. injection Ht as ->. now split.
      * destruct body; discriminate.
Qed.

(** C4. The samples of a flush come in reverse chronological order of
    the consumed transitions.  The consumed transitions are the whole
    memory for a terminal flush and all but the last one otherwise;
    position by position the samples are derived from that segment read
    backwards, so the sample of the most recent consumed transition is
    first and the sample of the oldest is last. *)
Theorem flush_order (p p' : Player) (is_done : bool) (samples : list Sample) :
  memory_to_samples p is_done = Some (p', samples) ->
  exists consumed,
    memory p = consumed ++ memory p' /\
    (if is_done then memory p' = []
     else exists last_item, memory p' = [last_item]) /\
    Forall2 (fun s t => exists R, s = sample_of t R) samples (rev consumed) /\
    (forall body newest, consumed = body ++ [newest] ->
       exists R later, samples = sample_of newest R :: later) /\
    (forall oldest rest, consumed = oldest :: rest ->
       exists R earlier, samples = earlier ++ [sample_of oldest R]).
Proof.
  intros Hf. destruct (flush_inv _ _ _ _ Hf) as (consumed & seed & Hm & _ & Hs & Hk).
  exists consumed. split; [exact Hm|].
  split; [destruct is_done; [tauto | destruct Hk as (x & Hx & _); eauto]|].
  assert (HF : Forall2 (fun s t => exists R, s = sample_of t R) samples (rev consumed))
    by (rewrite Hs; apply samples_loop_derived).
  split; [exact HF|]. split.
  - intros body newest ->. rewrite rev_app_distr in HF. simpl in HF.
    inversion HF as [|s t l l' [R ->] _]; subst. eauto.
  - intros oldest rest ->. simpl in HF.
    apply Forall2_app_inv_r in HF as (l1 & l2 & _ & H2 & ->).
    inversion H2 as [|s t l l' [R ->] Hnil]; subst. inversion Hnil; subst. eauto.
Qed.

Section CommutativeProduct.

Hypothesis nmul_comm : forall a b : Num, nmul a b = nmul b a.

Lemma loop_return_spec (g seed : Num) (seg : list Transition) :
  loop_return g seed (rev seg) = spec_return g seed seg.
Proof.
  induction seg as [|t rest IH]; simpl; [reflexivity|].
  now rewrite loop_return_snoc, IH, nmul_comm.
Qed.

(** Walking the reversed segment yields the reversed labelling of the
    specification. *)
Lemma samples_loop_spec (g seed : Num) (seg : list Transition) :
  samples_loop g seed (rev seg) [] = rev (spec_samples g seed seg).
Proof.
  induction seg as [|t rest IH]; simpl; [reflexivity|].
  now rewrite samples_loop_snoc, IH, loop_return_spec, nmul_comm.
Qed.

(** C2. A flush of a non-empty memory yields the samples of the
    recurrence R_t = reward_t + gamma * R_{t+1}: the seed R_{T+1} is 0.0 for
    a terminal flush, which consumes the whole memory; otherwise it is the
    value estimate of the last transition, which is taken off the segment,
    gives no sample and is what the memory keeps.  Each sample carries R_t
    as return label and R_t minus the recorded value estimate as advantage
    ([spec_samples], [sample_of]). *)
Theorem flush_recurrence (p : Player) (is_done : bool) :
  memory p <> [] ->
  exists consumed kept seed,
    memory_to_samples p is_done =
      Some (set_memory p kept (flush_trace p ++ [is_done]),
            rev (spec_samples (gamma p) seed consumed)) /\
    memory p = consumed ++ kept /\
    (if is_done then seed = nzero /\ kept = []
     else exists last_item, kept = [last_item] /\ seed = t_value last_item).
Proof.
  intros Hne. destruct is_done.
  - exists (memory p), [], nzero. rewrite flush_done, samples_loop_spec.
    now rewrite app_nil_r.
  - destruct (snoc_cases _ (memory p)) as [He | (body & x & Hm)]; [contradiction|].
    exists body, [x], (t_value x). rewrite (flush_bootstrap _ _ _ Hm), samples_loop_spec.
    eauto.
Qed.

End CommutativeProduct.

(** ** One loop iteration of [play] *)

Lemma record_step_inv (p : Player) (w : World) (p1 : Player) (w1 : World)
  (new_state : Obs) (done : bool) :
  record_step p w = (p1, w1, new_state, done) ->
  exists t,
    memory p1 = memory p ++ [t] /\
    t_state t = state p /\
    step_index p1 = step_index p + 1 /\
    reward_steps p1 = reward_steps p /\
    gamma p1 = gamma p /\
    max_steps p1 = max_steps p /\
    player_index p1 = player_index p /\
    flush_trace p1 = flush_trace p.
Proof.
  unfold record_step.
  destruct (predict_on_batch (weights w) (state p)) as [probs value].
  destruct (random_choice (rng w) probs) as [action rng'].
  destruct (env_step (env p) action) as [[[ns reward] d] env'].
  intros [= <- _ _ _]. simpl. eexists. repeat split.
Qed.

(** The three ways an iteration can end, with everything it leaves. *)
Lemma play_step_cases (p : Player) (w : World) (p1 : Player) (w1 : World)
  (new_state : Obs) (done : bool) :
  record_step p w = (p1, w1, new_state, done) ->
  exists t, memory p1 = memory p ++ [t] /\
  play_step p w =
    if done || (max_steps p1 <? step_index p1) then
      Some (mkPlayer (snd (env_reset (env p1))) (reward_steps p1) (gamma p1)
              (fst (env_reset (env p1))) (if done then [] else [t]) nzero 0
              (max_steps p1) (player_index p1) (flush_trace p1 ++ [done]),
            mkWorld (weights w1) (rng w1)
              (log w1 ++ [(player_index p1, step_index p1, to_int (episode_reward p1))]),
            samples_loop (gamma p1) (if done then nzero else t_value t)
              (rev (if done then memory p1 else memory p)) [],
            true)
    else if Z.of_nat (length (memory p1)) =? reward_steps p1 + 1 then
      Some (mkPlayer (env p1) (reward_steps p1) (gamma p1) new_state [t]
              (episode_reward p1) (step_index p1) (max_steps p1)
              (player_index p1) (flush_trace p1 ++ [false]),
            w1, samples_loop (gamma p1) (t_value t) (rev (memory p)) [], false)
    else Some (set_state p1 new_state, w1, [], false).
Proof.
  intros Hrec. destruct (record_step_inv _ _ _ _ _ _ Hrec) as (t & Hm & _).
  exists t. split; [exact Hm|].
  unfold play_step. rewrite Hrec. unfold settle_step.
  destruct (done || (max_steps p1 <? step_index p1)).
  - destruct (env_reset (env p1)) as [s0 env']. simpl fst. simpl snd.
    destruct done.
    + rewrite flush_done. reflexivity.
    + erewrite flush_bootstrap by (simpl; exact Hm). reflexivity.
  - destruct (Z.of_nat (length (memory p1)) =? reward_steps p1 + 1); [|reflexivity].
    erewrite flush_bootstrap by exact Hm. reflexivity.
Qed.

Lemma trace_grows (A : Type) (l : list A) (x : A) : l ++ [x] <> l.
Proof.
  intros H. apply (f_equal (@length A)) in H. rewrite length_app in H.
  simpl in H. lia.
Qed.

Lemma trace_last (A : Type) (l : list A) (x y : A) : l ++ [x] = l ++ [y] -> x = y.
Proof. intros H. apply app_inv_head in H. now injection H. Qed.

(** C1, as the code has it.  A step cut short by the step budget while
    [done] is [False] flushes with [is_done=done], that is as a
    non-terminal flush: the return seed is the value estimate of the
    transition recorded on that step, the samples are those of the
    transitions recorded before it, and that last transition is kept as
    the only element of the memory. *)
Theorem truncation_flush_bootstraps (p : Player) (w : World) (p1 : Player)
  (w1 : World) (new_state : Obs) :
  record_step p w = (p1, w1, new_state, false) ->
  max_steps p1 < step_index p1 ->
  exists t p' w',
    memory p1 = memory p ++ [t] /\
    play_step p w =
      Some (p', w', samples_loop (gamma p) (t_value t) (rev (memory p)) [], true) /\
    flushed_with p p' false /\
    memory p' = [t].
Proof.
  intros Hrec Hover.
  destruct (record_step_inv _ _ _ _ _ _ Hrec) as (t0 & _ & _ & _ & _ & Hg & _ & _ & Htr).
  destruct (play_step_cases _ _ _ _ _ _ Hrec) as (t & Hm & Hstep).
  apply Z.ltb_lt in Hover. rewrite Hover in Hstep. simpl in Hstep.
  rewrite Hg, Htr in Hstep.
  exists t. do 2 eexists. split; [exact Hm|]. split; [exact Hstep|].
  split; reflexivity.
Qed.

(** C8. When a step ends the episode ([done]) or exceeds the step
    budget, the player it leaves has step counter 0 and reward accumulator
    0.0, its state and environment are those returned by [env.reset()],
    and the loop of [play] stops there whatever number of iterations was
    still to run. *)
Theorem episode_end_resets_and_stops (p : Player) (w : World) (p1 : Player)
  (w1 : World) (new_state : Obs) (done : bool) :
  record_step p w = (p1, w1, new_state, done) ->
  done = true \/ max_steps p1 < step_index p1 ->
  exists p' w' smp,
    play_step p w = Some (p', w', smp, true) /\
    step_index p' = 0 /\
    episode_reward p' = nzero /\
    (state p', env p') = env_reset (env p1) /\
    forall n result, play_loop (S n) p w result = Some (p', w', result ++ smp).
Proof.
  intros Hrec Hover.
  destruct (play_step_cases _ _ _ _ _ _ Hrec) as (t & _ & Hstep).
  assert (Hc : done || (max_steps p1 <? step_index p1) = true).
  { destruct Hover as [-> | Hlt]; [reflexivity|].
    apply Z.ltb_lt in Hlt. rewrite Hlt. apply orb_true_r. }
  rewrite Hc in Hstep. do 3 eexists. split; [exact Hstep|].
  simpl. repeat split.
  - now destruct (env_reset (env p1)).
  - intros n result. simpl. now rewrite Hstep.
Qed.

(** C9. An iteration of [play] calls the flush at most once.  The
    episode-end/truncation flush and the memory-full flush are the two
    arms of one [if]/[elif]; the first ends the loop of [play], the second
    and the iteration without flush let it go on with the next
    iteration. *)
Theorem one_flush_per_step (p : Player) (w : World) (p1 : Player) (w1 : World)
  (new_state : Obs) (done : bool) :
  record_step p w = (p1, w1, new_state, done) ->
  exists p' w' smp brk,
    play_step p w = Some (p', w', smp, brk) /\
    (length (flush_trace p') <= length (flush_trace p) + 1)%nat /\
    (if done || (max_steps p1 <? step_index p1)
     then flushed_with p p' done /\ brk = true
     else if Z.of_nat (length (memory p1)) =? reward_steps p1 + 1
     then flushed_with p p' false /\ brk = false
     else quiet p p' /\ smp = [] /\ brk = false) /\
    (forall n result,
       play_loop (S n) p w result =
       if brk then Some (p', w', result ++ smp)
       else play_loop n p' w' (result ++ smp)).
Proof.
  intros Hrec.
  destruct (record_step_inv _ _ _ _ _ _ Hrec) as (t0 & _ & _ & _ & _ & _ & _ & _ & Htr).
  destruct (play_step_cases _ _ _ _ _ _ Hrec) as (t & _ & Hstep).
  destruct (done || (max_steps p1 <? step_index p1));
    [|destruct (Z.of_nat (length (memory p1)) =? reward_steps p1 + 1)];
    do 4 eexists; (split; [exact Hstep|]);
    unfold flushed_with, quiet; simpl flush_trace; rewrite ?Htr, ?length_app;
    (split; [simpl; lia|]); (split; [now repeat split|]);
    intros n result; simpl; rewrite Hstep, ?Htr; reflexivity.
Qed.

(** ** Invariants over the life of a player *)

(** What an iteration does to the memory and to the trace. *)
Lemma play_step_memory (p : Player) (w : World) (p' : Player) (w' : World)
  (smp : list Sample) (brk : bool) :
  play_step p w = Some (p', w', smp, brk) ->
  reward_steps p' = reward_steps p /\
  exists t,
    (flushed_with p p' true /\ memory p' = [] /\
     smp = samples_loop (gamma p) nzero (rev (memory p ++ [t])) []) \/
    (flushed_with p p' false /\ memory p' = [t] /\
     smp = samples_loop (gamma p) (t_value t) (rev (memory p)) []) \/
    (quiet p p' /\ memory p' = memory p ++ [t] /\ smp = [] /\
     Z.of_nat (length (memory p ++ [t])) <> reward_steps p + 1).
Proof.
  intros Hstep.
  destruct (record_step p w) as [[[p1 w1] ns] done] eqn:Hrec.
  destruct (record_step_inv _ _ _ _ _ _ Hrec)
    as (t0 & _ & _ & _ & Hrs & Hg & _ & _ & Htr).
  destruct (play_step_cases _ _ _ _ _ _ Hrec) as (t & Hm & Hcase).
  rewrite Hcase in Hstep. clear Hcase.
  destruct (done || (max_steps p1 <? step_index p1)).
  - injection Hstep as <- _ <- _. split; [exact Hrs|]. exists t.
    unfold flushed_with. simpl. rewrite Htr, Hg, Hm.
    destruct done; [left | right; left]; repeat split.
  - destruct (Z.of_nat (length (memory p1)) =? reward_steps p1 + 1) eqn:Hfull.
    + injection Hstep as <- _ <- _. split; [exact Hrs|]. exists t.
      right; left. unfold flushed_with. simpl. rewrite Htr, Hg. repeat split.
    + injection Hstep as <- _ <- _. split; [exact Hrs|]. exists t.
      right; right. unfold quiet. simpl. rewrite Htr, <- Hm, <- Hrs.
      repeat split. now apply Z.eqb_neq.
Qed.

Lemma reachable_invariant (e : Env) (rs : Z) (g : Num) (ms idx : Z) (p : Player) :
  1 <= rs ->
  reachable e rs g ms idx p ->
  reward_steps p = rs /\ Z.of_nat (length (memory p)) <= rs.
Proof.
  intros Hrs Hreach. induction Hreach as [|p w p' w' smp brk _ [IHrs IHlen] Hstep].
  - unfold init_player. destruct (env_reset e). simpl. lia.
  - destruct (play_step_memory _ _ _ _ _ _ Hstep)
      as (Hrs' & t & [(_ & Hm & _) | [(_ & Hm & _) | (_ & Hm & _ & Hne)]]);
      rewrite Hrs', Hm; (split; [exact IHrs|]); simpl; try lia.
    rewrite length_app in *. simpl in *. lia.
Qed.

(** Every call of [play] stays among the reachable states. *)
Lemma reachable_play_loop (e : Env) (rs : Z) (g : Num) (ms idx : Z) (n : nat) :
  forall p w result p' w' smp,
    reachable e rs g ms idx p ->
    play_loop n p w result = Some (p', w', smp) ->
    reachable e rs g ms idx p'.
Proof.
  induction n as [|n IH]; intros p w result p' w' smp Hreach; simpl.
  - now intros [= <- _ _].
  - destruct (play_step p w) as [[[[q wq] sq] brk]|] eqn:Hstep; [|discriminate].
    assert (Hq : reachable e rs g ms idx q) by (eapply reach_step; eassumption).
    destruct brk; [now intros [= <- _ _] | eauto].
Qed.

(** C7, as the code has it.  For a player created with
    [reward_steps >= 1], at every point of every call of [play]: between
    iterations the memory holds at most [reward_steps] transitions, and
    right after the append and after the iteration at most
    [reward_steps + 1].  For every player, whatever its [reward_steps]
    and its state, an iteration that flushes leaves the memory empty
    (terminal flush) or holding exactly the transition it has just
    appended (non-terminal flush). *)
Theorem memory_bounded (e : Env) (rs : Z) (g : Num) (ms idx : Z) (p : Player) :
  (1 <= rs ->
   reachable e rs g ms idx p ->
   Z.of_nat (length (memory p)) <= reward_steps p /\
   forall w p1 w1 new_state done p' w' smp brk,
     record_step p w = (p1, w1, new_state, done) ->
     play_step p w = Some (p', w', smp, brk) ->
     Z.of_nat (length (memory p1)) <= reward_steps p + 1 /\
     Z.of_nat (length (memory p')) <= reward_steps p + 1) /\
  (forall w p1 w1 new_state done p' w' smp brk,
     record_step p w = (p1, w1, new_state, done) ->
     play_step p w = Some (p', w', smp, brk) ->
     (flushed_with p p' true -> memory p' = []) /\
     (flushed_with p p' false ->
        exists t, memory p1 = memory p ++ [t] /\ memory p' = [t])).
Proof.
  split.
  - intros Hrs Hreach.
    destruct (reachable_invariant _ _ _ _ _ _ Hrs Hreach) as [Hrsp Hlen].
    rewrite Hrsp. split; [exact Hlen|].
    intros w p1 w1 ns done p' w' smp brk Hrec Hstep.
    destruct (play_step_cases _ _ _ _ _ _ Hrec) as (t & Hm & _).
    assert (Hreach' : reachable e rs g ms idx p') by (eapply reach_step; eassumption).
    destruct (reachable_invariant _ _ _ _ _ _ Hrs Hreach') as [_ Hlen'].
    split; [rewrite Hm, length_app; simpl; lia | lia].
  - intros w p1 w1 ns done p' w' smp brk Hrec Hstep.
    destruct (play_step_cases _ _ _ _ _ _ Hrec) as (t & Hm & Hcase).
    destruct (record_step_inv _ _ _ _ _ _ Hrec) as (_ & _ & _ & _ & _ & _ & _ & _ & Htr).
    rewrite Htr in Hcase.
    destruct (play_step_memory _ _ _ _ _ _ Hstep)
      as (_ & t' & [(Hf & Hm' & _) | [(Hf & Hm' & _) | (Hq & Hm' & _)]]);
      unfold flushed_with, quiet in *; split; intros Hd;
      rewrite Hf in Hd || rewrite Hq in Hd.
    + exact Hm'.
    + apply trace_last in Hd. discriminate.
    + apply trace_last in Hd. discriminate.
    + rewrite Hcase in Hstep.
      destruct (done || (max_steps p1 <? step_index p1)).
      * injection Hstep as <- _ _ _. simpl in *. apply trace_last in Hf.
        exists t. rewrite Hf. now split.
      * destruct (Z.of_nat (length (memory p1)) =? reward_steps p1 + 1).
        -- injection Hstep as <- _ _ _. exists t. now split.
        -- injection Hstep as <- _ _ _. simpl in Hf. rewrite Htr in Hf.
           symmetry in Hf. now apply trace_grows in Hf.
    + symmetry in Hd. now apply trace_grows in Hd.
    + symmetry in Hd. now apply trace_grows in Hd.
Qed.

(** ** The transition kept by a truncation flush *)

Lemma quiet_keeps_head (q : Player) (w : World) (q' : Player) (w' : World)
  (smp : list Sample) (brk : bool) (t : Transition) (later : list Transition) :
  memory q = t :: later ->
  play_step q w = Some (q', w', smp, brk) ->
  quiet q q' ->
  exists later', memory q' = t :: later'.
Proof.
  intros Hm Hstep Hq. unfold quiet in Hq.
  destruct (play_step_memory _ _ _ _ _ _ Hstep)
    as (_ & t' & [(Hf & _) | [(Hf & _) | (_ & Hm' & _)]]).
  - unfold flushed_with in Hf. rewrite Hq in Hf. symmetry in Hf.
    now apply trace_grows in Hf.
  - unfold flushed_with in Hf. rewrite Hq in Hf. symmetry in Hf.
    now apply trace_grows in Hf.
  - rewrite Hm', Hm. simpl. eauto.
Qed.

Lemma quiet_steps_keep_head (p q : Player) :
  quiet_steps p q ->
  forall t later, memory p = t :: later -> exists later', memory q = t :: later'.
Proof.
  induction 1 as [p | p w p' w' smp brk p'' Hstep Hq _ IH]; intros t later Hm.
  - eauto.
  - destruct (quiet_keeps_head _ _ _ _ _ _ _ _ Hm Hstep Hq) as (later' & Hm').
    eapply IH. exact Hm'.
Qed.

Lemma flush_reaches_head (q : Player) (w : World) (q' : Player) (w' : World)
  (smp : list Sample) (brk is_done : bool) (t : Transition) (later : list Transition) :
  memory q = t :: later ->
  play_step q w = Some (q', w', smp, brk) ->
  flushed_with q q' is_done ->
  exists R earlier, smp = earlier ++ [sample_of t R].
Proof.
  intros Hm Hstep Hd.
  destruct (play_step_memory _ _ _ _ _ _ Hstep)
    as (_ & t' & [(_ & _ & ->) | [(_ & _ & ->) | (Hq & _)]]).
  - rewrite Hm. simpl app. simpl rev. rewrite samples_loop_snoc. eauto.
  - rewrite Hm. simpl rev. rewrite samples_loop_snoc. eauto.
  - unfold flushed_with, quiet in *. rewrite Hq in Hd. symmetry in Hd.
    now apply trace_grows in Hd.
Qed.

(** C10. A step cut short by the step budget while [done] is [False]
    pops the transition it has just recorded as the bootstrap and keeps it
    as the memory, while the episode counter is reset.  Through the
    following iterations that do not flush it stays the first element of
    the memory, and the next flush, whichever kind it is, turns it into a
    sample (the last one of that flush). *)
Theorem truncated_transition_carried_over (p : Player) (w : World) (p1 : Player)
  (w1 : World) (new_state : Obs) :
  record_step p w = (p1, w1, new_state, false) ->
  max_steps p1 < step_index p1 ->
  exists t p' w' smp,
    memory p1 = memory p ++ [t] /\
    play_step p w = Some (p', w', smp, true) /\
    flushed_with p p' false /\
    memory p' = [t] /\
    step_index p' = 0 /\
    forall q, quiet_steps p' q ->
      (exists later, memory q = t :: later) /\
      forall wq q' wq' smp' brk' is_done,
        play_step q wq = Some (q', wq', smp', brk') ->
        flushed_with q q' is_done ->
        exists R earlier, smp' = earlier ++ [sample_of t R].
Proof.
  intros Hrec Hover.
  destruct (record_step_inv _ _ _ _ _ _ Hrec) as (_ & _ & _ & _ & _ & _ & _ & _ & Htr).
  destruct (play_step_cases _ _ _ _ _ _ Hrec) as (t & Hm & Hstep).
  apply Z.ltb_lt in Hover. rewrite Hover in Hstep. simpl in Hstep.
  exists t. do 3 eexists. split; [exact Hm|]. split; [exact Hstep|].
  split; [unfold flushed_with; simpl; now rewrite Htr|].
  split; [reflexivity|]. split; [reflexivity|].
  intros q Hq.
  destruct (quiet_steps_keep_head _ _ Hq t [] eq_refl) as (later & Hmq).
  split; [eauto|].
  intros wq q' wq' smp' brk' is_done Hstep' Hd.
  exact (flush_reaches_head _ _ _ _ _ _ _ _ _ Hmq Hstep' Hd).
Qed.

(** ** [generate_batches] *)

Lemma zip_star_columns (rows : list Sample) :
  zip_star rows =
  (map s_state rows, map s_action rows, map s_return rows, map s_advantage rows).
Proof.
  induction rows as [|[[[s a] r] adv] rest IH]; simpl; [reflexivity|].
  now rewrite IH.
Qed.

Lemma make_batch_inv (rows : list Sample) (b : Batch) :
  make_batch rows = Some b ->
  rows <> [] /\
  b = ((map s_state rows, map s_action rows, map s_advantage rows),
       (map s_return rows, map s_return rows)).
Proof.
  destruct rows as [|r rest]; [discriminate|].
  unfold make_batch. rewrite zip_star_columns. intros [= <-].
  split; [discriminate | reflexivity].
Qed.

Lemma emit_inv (batch_size : Z) (st : GenState) (b : Batch) (st' : GenState) :
  emit batch_size st = Some (Yield b st') ->
  st' = st /\
  batch_size <= Z.of_nat (length (g_samples st)) /\
  make_batch (slice_to (g_samples st) batch_size) = Some b.
Proof.
  unfold emit. destruct (batch_size <=? _) eqn:Hle; [|discriminate].
  apply Z.leb_le in Hle.
  destruct (make_batch _) as [b0|]; [|discriminate].
  intros [= -> ->]. auto.
Qed.

Lemma emit_none (batch_size : Z) (st : GenState) :
  emit batch_size st = None -> Z.of_nat (length (g_samples st)) < batch_size.
Proof.
  unfold emit. destruct (batch_size <=? _) eqn:Hle.
  - destruct (make_batch _); discriminate.
  - intros _. apply Z.leb_gt in Hle. exact Hle.
Qed.

(** The accumulating loop over the players computes the round of the
    specification. *)
Lemma play_round_advance (todo : list Player) :
  forall played (w : World) pool ps' (w' : World) pool',
    play_round todo played w pool = Some (ps', w', pool') ->
    exists qs outs,
      round_advance todo w = Some (qs, w', outs) /\
      ps' = played ++ qs /\
      length outs = length todo /\
      pool' = pool ++ concat outs.
Proof.
  induction todo as [|p rest IH]; intros played w pool ps' w' pool'; simpl.
  - intros [= <- <- <-]. exists [], []. simpl. now rewrite !app_nil_r.
  - destruct (play p w 1) as [[[q wq] smp]|]; [|discriminate].
    intros Hrest.
    destruct (IH _ _ _ _ _ _ Hrest) as (qs & outs & -> & -> & Hlen & ->).
    exists (q :: qs), (smp :: outs). simpl.
    now rewrite Hlen, <- !app_assoc.
Qed.

Lemma gen_rounds_yield (batch_size : Z) (fuel : nat) :
  forall (st : GenState) (b : Batch) (st' : GenState),
    gen_rounds fuel batch_size st = Yield b st' ->
    after_rounds batch_size st st' /\
    batch_size <= Z.of_nat (length (g_samples st')) /\
    make_batch (slice_to (g_samples st') batch_size) = Some b.
Proof.
  induction fuel as [|fuel IH]; intros st b st'; simpl; [discriminate|].
  destruct (play_round _ _ _ _) as [[[ps w] pool]|] eqn:Hround; [|discriminate].
  destruct (play_round_advance _ _ _ _ _ _ _ Hround)
    as (qs & outs & Houts & Hps & Hlen & Hpool).
  simpl in Hps. subst ps.
  assert (Hr : round_of st (mkGen qs w pool)) by (exists outs; auto).
  destruct (emit batch_size (mkGen qs w pool)) as [o|] eqn:Hemit.
  - intros ->. destruct (emit_inv _ _ _ _ Hemit) as (-> & Hle & Hb).
    split; [now apply rounds_last | auto].
  - intros Hy. destruct (IH _ _ _ Hy) as (Hafter & Hrest).
    split; [|exact Hrest].
    eapply rounds_next; [exact Hr | now apply emit_none | exact Hafter].
Qed.

Lemma gen_resume_yield (batch_size : Z) (fuel : nat) (st : GenState) (b : Batch)
  (st' : GenState) :
  gen_resume fuel batch_size st = Yield b st' ->
  let st0 := mkGen (g_players st) (g_world st) (slice_from (g_samples st) batch_size) in
  (st' = st0 \/
   Z.of_nat (length (g_samples st0)) < batch_size /\ after_rounds batch_size st0 st') /\
  batch_size <= Z.of_nat (length (g_samples st')) /\
  make_batch (slice_to (g_samples st') batch_size) = Some b.
Proof.
  unfold gen_resume. cbv zeta.
  destruct (emit batch_size _) as [o|] eqn:Hemit.
  - intros ->. destruct (emit_inv _ _ _ _ Hemit) as (-> & Hle & Hb). auto.
  - intros Hy. destruct (gen_rounds_yield _ _ _ _ _ Hy) as (Hafter & Hrest).
    split; [right; split; [now apply emit_none | exact Hafter] | exact Hrest].
Qed.

Lemma slices_nonneg (A : Type) (l : list A) (n : Z) :
  0 <= n ->
  slice_to l n = firstn (Z.to_nat n) l /\ slice_from l n = skipn (Z.to_nat n) l.
Proof.
  intros Hn. unfold slice_to, slice_from.
  destruct (n <? 0) eqn:Hneg; [apply Z.ltb_lt in Hneg; lia | auto].
Qed.

(** C5, as the code has it.  For [0 <= batch_size], every batch the
    generator yields holds exactly [batch_size] samples: its columns are
    the fields of the first [batch_size] samples of the pool, in pool
    order; on resumption the generator goes on with the pool without
    them, the rest carried over.  The state at the yield is the state the
    generator started or resumed with after one or more rounds, each
    advancing every player by [play(1)] in list order, in the world the
    previous player left, and appending each player's samples in the
    order [play] returned them; all rounds but the last leave fewer than
    [batch_size] samples. *)
Theorem batches_are_fifo_slices (fuel : nat) (batch_size : Z) (st : GenState)
  (b : Batch) (st' : GenState) :
  0 <= batch_size ->
  gen_rounds fuel batch_size st = Yield b st' \/
  gen_resume fuel batch_size st = Yield b st' ->
  let n := Z.to_nat batch_size in
  (exists rows leftover,
     g_samples st' = rows ++ leftover /\
     rows = firstn n (g_samples st') /\
     Z.of_nat (length rows) = batch_size /\
     b = ((map s_state rows, map s_action rows, map s_advantage rows),
          (map s_return rows, map s_return rows)) /\
     forall fuel',
       gen_resume fuel' batch_size st' =
       let rest := mkGen (g_players st') (g_world st') leftover in
       match emit batch_size rest with
       | Some o => o
       | None => gen_rounds fuel' batch_size rest
       end) /\
  (gen_rounds fuel batch_size st = Yield b st' -> after_rounds batch_size st st') /\
  (gen_resume fuel batch_size st = Yield b st' ->
     let st0 := mkGen (g_players st) (g_world st) (skipn n (g_samples st)) in
     st' = st0 \/
     Z.of_nat (length (g_samples st0)) < batch_size /\ after_rounds batch_size st0 st').
Proof.
  intros Hn Hy. cbv zeta.
  assert (Hfacts : batch_size <= Z.of_nat (length (g_samples st')) /\
                   make_batch (slice_to (g_samples st') batch_size) = Some b).
  { destruct Hy as [Hy | Hy].
    - now destruct (gen_rounds_yield _ _ _ _ _ Hy) as (_ & H).
    - now destruct (gen_resume_yield _ _ _ _ _ Hy) as (_ & H). }
  destruct Hfacts as [Hle Hb].
  destruct (slices_nonneg _ (g_samples st') _ Hn) as [Hto Hfrom].
  split; [|split].
  - exists (firstn (Z.to_nat batch_size) (g_samples st')),
      (skipn (Z.to_nat batch_size) (g_samples st')).
    split; [now rewrite firstn_skipn|]. split; [reflexivity|].
    split; [rewrite length_firstn; lia|].
    split; [rewrite Hto in Hb; now destruct (make_batch_inv _ _ Hb)|].
    intros fuel'. unfold gen_resume. now rewrite Hfrom.
  - intros Hr. now destruct (gen_rounds_yield _ _ _ _ _ Hr).
  - intros Hr. destruct (gen_resume_yield _ _ _ _ _ Hr) as (H & _).
    destruct (slices_nonneg _ (g_samples st) _ Hn) as [_ Hfrom0].
    cbv zeta in *. rewrite Hfrom0 in H. exact H.
Qed.

(** C6. Every batch the generator yields is the pair
    [((states, actions, advantages), (returns, returns))], the same return
    column given twice, and the four columns are parallel: they are as long
    as the slice of the pool the batch is made of, and position [i] of
    each holds the field of the [i]-th sample of that slice. *)
Theorem batch_structure (fuel : nat) (batch_size : Z) (st : GenState)
  (b : Batch) (st' : GenState) :
  gen_rounds fuel batch_size st = Yield b st' \/
  gen_resume fuel batch_size st = Yield b st' ->
  exists rows states actions advantages returns,
    rows = slice_to (g_samples st') batch_size /\
    b = ((states, actions, advantages), (returns, returns)) /\
    (length states = length rows /\ length actions = length rows /\
     length advantages = length rows /\ length returns = length rows) /\
    forall i s, nth_error rows i = Some s ->
      nth_error states i = Some (s_state s) /\
      nth_error actions i = Some (s_action s) /\
      nth_error advantages i = Some (s_advantage s) /\
      nth_error returns i = Some (s_return s).
Proof.
  intros Hy.
  assert (Hb : make_batch (slice_to (g_samples st') batch_size) = Some b).
  { destruct Hy as [Hy | Hy].
    - now destruct (gen_rounds_yield _ _ _ _ _ Hy) as (_ & _ & H).
    - now destruct (gen_resume_yield _ _ _ _ _ Hy) as (_ & _ & H). }
  destruct (make_batch_inv _ _ Hb) as [_ ->].
  do 5 eexists. split; [reflexivity|]. split; [reflexivity|].
  rewrite !length_map. split; [auto|].
  intros i s Hi. repeat split; now apply map_nth_error.
Qed.

End A3C_Properties.

(** * Further properties of the code *)

Section A3C_Further.

Context {Num Obs Env Weights Rng : Type}.
Context {numeric : Numeric Num}.
Context {environment : Environment Env Obs Num}.
Context {policy : Policy Weights Rng Obs Num}.

Local Abbreviation Transition := (@Transition Num Obs).
Local Abbreviation Sample := (@Sample Num Obs).
Local Abbreviation Player := (@Player Num Obs Env).
Local Abbreviation World := (@World Weights Rng).
Local Abbreviation GenState := (@GenState Num Obs Env Weights Rng).
Local Abbreviation Batch := (@Batch Num Obs).

Local Abbreviation derived :=
  (fun (s : Sample) (t : Transition) => exists R, s = sample_of t R).

(** ** Flushes *)

Lemma flush_raises_iff (p : Player) (is_done : bool) :
  memory_to_samples p is_done = None <-> is_done = false /\ memory p = [].
Proof.
  split.
  - destruct is_done; [rewrite flush_done; discriminate|].
    destruct (snoc_cases _ (memory p)) as [He | (body & x & Hm)]; [auto|].
    rewrite (flush_bootstrap _ _ _ Hm). discriminate.
  - intros [-> He]. unfold memory_to_samples, list_pop. now rewrite He.
Qed.

Lemma flush_done_empty (p : Player) :
  memory p = [] ->
  memory_to_samples p true = Some (set_memory p [] (flush_trace p ++ [true]), []).
Proof. intros He. rewrite flush_done, He. reflexivity. Qed.

(** X1. The only flush that raises is the non-terminal flush of an empty
    memory ([pop] from an empty list); a terminal flush of an empty memory
    returns no sample and leaves the memory empty. *)
Theorem flush_of_empty_memory (p : Player) (is_done : bool) :
  (memory_to_samples p is_done = None <-> is_done = false /\ memory p = []) /\
  (memory p = [] ->
   memory_to_samples p true = Some (set_memory p [] (flush_trace p ++ [true]), [])).
Proof.
  split; [apply flush_raises_iff | apply flush_done_empty].
Qed.

Lemma samples_loop_app (g : Num) (l1 l2 : list Transition) :
  forall R,
    samples_loop g R (l1 ++ l2) [] =
    samples_loop g R l1 [] ++ samples_loop g (loop_return g R l1) l2 [].
Proof.
  induction l1 as [|[[[s a] r] v] rest IH]; intros R; simpl; [reflexivity|].
  rewrite samples_loop_acc, IH, (samples_loop_acc _ rest _ [_]).
  now rewrite app_assoc.
Qed.

(** X2. The samples of the most recent transitions do not depend on what
    lies before them in the memory: flushing a memory [old ++ recent]
    gives first exactly the samples that flushing [recent] alone gives,
    then one sample per transition of [old], newest first, and keeps the
    same transition. *)
Theorem flush_of_recent_part (p : Player) (is_done : bool)
  (old recent : list Transition) :
  memory p = old ++ recent ->
  recent <> [] ->
  exists q q' s_recent s_old,
    memory_to_samples (set_memory p recent (flush_trace p)) is_done =
      Some (q, s_recent) /\
    memory_to_samples p is_done = Some (q', s_recent ++ s_old) /\
    memory q' = memory q /\
    Forall2 derived s_old (rev old).
Proof.
  intros Hm Hne. destruct is_done.
  - rewrite !flush_done. do 4 eexists. split; [reflexivity|].
    simpl gamma. simpl memory. rewrite Hm, rev_app_distr, samples_loop_app.
    split; [reflexivity|]. split; [reflexivity|]. apply samples_loop_derived.
  - destruct (snoc_cases _ recent) as [He | (body & x & Hr)]; [contradiction|].
    assert (Hm' : memory p = (old ++ body) ++ [x])
      by (now rewrite Hm, Hr, app_assoc).
    rewrite (flush_bootstrap p _ _ Hm').
    rewrite (flush_bootstrap (set_memory p recent (flush_trace p)) body x Hr).
    do 4 eexists. split; [reflexivity|].
    simpl gamma. rewrite rev_app_distr, samples_loop_app.
    split; [reflexivity|]. split; [reflexivity|]. apply samples_loop_derived.
Qed.

(** X3. Flushing again right after a flush yields nothing new: after a
    terminal flush a second terminal flush returns no sample and a
    non-terminal one raises; after a non-terminal flush a second
    non-terminal flush returns no sample and keeps the same single
    transition. *)
Theorem flush_twice (p p' : Player) (is_done : bool) (samples : list Sample) :
  memory_to_samples p is_done = Some (p', samples) ->
  if is_done
  then memory_to_samples p' true =
         Some (set_memory p' [] (flush_trace p' ++ [true]), []) /\
       memory_to_samples p' false = None
  else memory_to_samples p' false =
         Some (set_memory p' (memory p') (flush_trace p' ++ [false]), []).
Proof.
  intros Hf. destruct (flush_inv _ _ _ _ Hf) as (consumed & seed & _ & _ & _ & Hk).
  destruct is_done.
  - destruct Hk as [He _]. split.
    + now apply flush_done_empty.
    + now apply flush_raises_iff.
  - destruct Hk as (x & Hx & _).
    rewrite (flush_bootstrap p' [] x Hx), Hx. reflexivity.
Qed.

(** ** Calls of [play] *)

(** Everything one iteration does, read off [record_step] and
    [settle_step] together. *)
Lemma play_step_effect (p : Player) (w : World) (p' : Player) (w' : World)
  (smp : list Sample) (brk : bool) :
  play_step p w = Some (p', w', smp, brk) ->
  exists t consumed r,
    memory p ++ [t] = consumed ++ memory p' /\
    t_state t = state p /\
    Forall2 derived smp (rev consumed) /\
    configuration p' = configuration p /\
    weights w' = weights w /\
    (if brk
     then log w' = log w ++ [(player_index p, step_index p + 1, r)] /\
          step_index p' = 0 /\ episode_reward p' = nzero /\
          (length (memory p') <= 1)%nat
     else log w' = log w /\ step_index p' = step_index p + 1 /\
          step_index p + 1 <= max_steps p).
Proof.
  unfold play_step, record_step.
  destruct (predict_on_batch (weights w) (state p)) as [probs value].
  destruct (random_choice (rng w) probs) as [action rng'].
  destruct (env_step (env p) action) as [[[ns reward] done] env'].
  unfold settle_step. cbn [max_steps step_index env memory reward_steps].
  set (t := (state p, action, reward, value)).
  destruct (done || (max_steps p <? step_index p + 1)) eqn:Hover.
  - destruct (env_reset env') as [s0 env''].
    destruct done.
    + rewrite flush_done. intros [= <- <- <- <-].
      exists t, (memory p ++ [t]), (to_int (nadd (episode_reward p) reward)).
      cbn. rewrite app_nil_r. repeat split; auto.
      apply samples_loop_derived.
    + erewrite flush_bootstrap by (cbn; reflexivity). intros [= <- <- <- <-].
      exists t, (memory p), (to_int (nadd (episode_reward p) reward)).
      cbn. repeat split; auto. apply samples_loop_derived.
  - apply orb_false_iff in Hover as [_ Hle]. apply Z.ltb_ge in Hle.
    destruct (Z.of_nat (length (memory p ++ [t])) =? reward_steps p + 1).
    + erewrite flush_bootstrap by (cbn; reflexivity). intros [= <- <- <- <-].
      exists t, (memory p), 0. cbn. repeat split; auto.
      apply samples_loop_derived.
    + intros [= <- <- <- <-]. exists t, [], 0. cbn. repeat split; auto.
Qed.


(** X5. No transition is lost or counted twice by an iteration of
    [play]: the memory before the step followed by the transition of the
    step (whose state is the player's state before the step) splits into
    the transitions consumed, each turned into one sample, newest first,
    and the memory after the step. *)
Theorem play_step_conserves_transitions (p : Player) (w : World) (p' : Player)
  (w' : World) (smp : list Sample) (brk : bool) :
  play_step p w = Some (p', w', smp, brk) ->
  exists t consumed,
    memory p ++ [t] = consumed ++ memory p' /\
    t_state t = state p /\
    Forall2 derived smp (rev consumed).
Proof.
  intros Hstep.
  destruct (play_step_effect _ _ _ _ _ _ Hstep) as (t & consumed & _ & H1 & H2 & H3 & _).
  eauto.
Qed.

Lemma play_loop_outcome (n : nat) :
  forall (p : Player) (w : World) result p' (w' : World) out,
    play_loop n p w result = Some (p', w', out) ->
    exists smp,
      out = result ++ smp /\
      configuration p' = configuration p /\
      weights w' = weights w /\
      ((log w' = log w /\
        step_index p' = step_index p + Z.of_nat n /\
        (length smp + length (memory p') = length (memory p) + n)%nat) \/
       (exists k r,
          (1 <= k <= n)%nat /\
          log w' = log w ++ [(player_index p, step_index p + Z.of_nat k, r)] /\
          step_index p' = 0 /\
          episode_reward p' = nzero /\
          (length smp + length (memory p') = length (memory p) + k)%nat)).
Proof.
  induction n as [|n IH]; intros p w result p' w' out; simpl.
  - intros [= <- <- <-]. exists []. rewrite app_nil_r.
    split; [reflexivity|]. split; [reflexivity|]. split; [reflexivity|].
    left. split; [reflexivity|]. split; simpl; lia.
  - destruct (play_step p w) as [[[[q wq] sq] brk]|] eqn:Hstep; [|discriminate].
    destruct (play_step_effect _ _ _ _ _ _ Hstep)
      as (t & consumed & r & Hmem & _ & HF & Hcfg & Hwt & Hbrk).
    assert (Hcount : (length sq + length (memory q) = length (memory p) + 1)%nat).
    { apply Forall2_length in HF. rewrite length_rev in HF.
      apply (f_equal (@length _)) in Hmem. rewrite !length_app in Hmem.
      simpl in Hmem. lia. }
    destruct brk.
    + intros [= <- <- <-]. exists sq. repeat split; auto.
      destruct Hbrk as (Hlog & Hidx & Hrew & _).
      right. exists 1%nat, r. repeat split; auto; lia.
    + intros Hrest. destruct Hbrk as (Hlog & Hidx & _).
      destruct (IH _ _ _ _ _ _ Hrest) as (smp & -> & Hcfg' & Hwt' & Hcases).
      exists (sq ++ smp). rewrite app_assoc. split; [reflexivity|].
      split; [congruence|]. split; [congruence|].
      assert (Hpi : player_index q = player_index p)
        by (unfold configuration in Hcfg; congruence).
      destruct Hcases as [(Hl & Hi & Hc) | (k & r' & Hk & Hl & Hi & Hr & Hc)].
      * left. rewrite length_app. repeat split; [congruence | lia | lia].
      * right. exists (S k), r'. rewrite length_app.
        repeat split; try lia; auto.
        rewrite Hl, Hlog, Hpi, Hidx. do 4 f_equal. lia.
Qed.

(** X6. What a call [play(steps)] amounts to.  Either no episode ended:
    all [max(steps, 0)] iterations ran, nothing was logged, the step
    counter advanced by that number, and the samples returned plus the
    memory left account for the memory found plus one transition per
    iteration.  Or the episode ended at the [k]-th iteration, with
    [1 <= k <= steps]: exactly one message was logged, carrying the
    player's index and the step count of the finished episode, the step
    counter and the reward sum are back to zero, and the same accounting
    holds for [k] iterations. *)
Theorem play_call_outcome (p : Player) (w : World) (steps : Z) (p' : Player)
  (w' : World) (smp : list Sample) :
  play p w steps = Some (p', w', smp) ->
  (log w' = log w /\
   step_index p' = step_index p + Z.max 0 steps /\
   Z.of_nat (length smp + length (memory p')) =
     Z.of_nat (length (memory p)) + Z.max 0 steps) \/
  (exists k r,
     1 <= k <= steps /\
     log w' = log w ++ [(player_index p, step_index p + k, r)] /\
     step_index p' = 0 /\
     episode_reward p' = nzero /\
     Z.of_nat (length smp + length (memory p')) = Z.of_nat (length (memory p)) + k).
Proof.
  unfold play. intros Hplay.
  destruct (play_loop_outcome _ _ _ _ _ _ _ Hplay)
    as (smp' & Hout & _ & _ & [(Hl & Hi & Hc) | (k & r & Hk & Hl & Hi & Hr & Hc)]);
    simpl in Hout; subst smp'.
  - left. repeat split; [exact Hl | lia | lia].
  - right. exists (Z.of_nat k), r. repeat split; auto; lia.
Qed.

(** X7. [play] leaves alone what [__init__] configured and what it only
    reads: the player's index, horizon, step budget and discount, and the
    weights of the shared model. *)
Theorem play_keeps_configuration (p : Player) (w : World) (steps : Z)
  (p' : Player) (w' : World) (smp : list Sample) :
  play p w steps = Some (p', w', smp) ->
  player_index p' = player_index p /\
  reward_steps p' = reward_steps p /\
  max_steps p' = max_steps p /\
  gamma p' = gamma p /\
  weights w' = weights w.
Proof.
  unfold play. intros Hplay.
  destruct (play_loop_outcome _ _ _ _ _ _ _ Hplay) as (_ & _ & Hcfg & Hwt & _).
  unfold configuration in Hcfg. injection Hcfg as H1 H2 H3 H4. auto.
Qed.

(** X8. A memory-full flush returns exactly [reward_steps] samples: when
    the step does not end the episode and the memory has reached
    [reward_steps + 1] transitions, the iteration returns [reward_steps]
    samples, keeps the transition of the step as the whole memory, moves
    the player to the new state and does not leave the loop. *)
Theorem memory_full_flush_size (p : Player) (w : World) (p1 : Player) (w1 : World)
  (new_state : Obs) (done : bool) :
  record_step p w = (p1, w1, new_state, done) ->
  done || (max_steps p1 <? step_index p1) = false ->
  Z.of_nat (length (memory p1)) = reward_steps p1 + 1 ->
  exists p' smp t,
    play_step p w = Some (p', w1, smp, false) /\
    Z.of_nat (length smp) = reward_steps p /\
    memory p1 = memory p ++ [t] /\
    memory p' = [t] /\
    state p' = new_state.
Proof.
  intros Hrec Hover Hfull.
  destruct (record_step_inv _ _ _ _ _ _ Hrec) as (_ & _ & _ & _ & Hrs & _).
  destruct (play_step_cases _ _ _ _ _ _ Hrec) as (t & Hm & Hstep).
  rewrite Hover in Hstep. apply Z.eqb_eq in Hfull as Hfull'. rewrite Hfull' in Hstep.
  do 2 eexists. exists t. split; [exact Hstep|].
  rewrite samples_loop_length, length_rev.
  rewrite Hm, length_app in Hfull. simpl in Hfull.
  repeat split; auto. lia.
Qed.

(** X9. The step counter of a player stays within its budget, and the
    memory never holds more than one transition of an earlier episode: in
    every state a player can reach, [step_index] is 0 or at most
    [max_steps], it is never negative, and the memory has at most
    [step_index + 1] elements. *)
Theorem step_counter_invariant (e : Env) (rs : Z) (g : Num) (ms idx : Z)
  (p : Player) :
  reachable e rs g ms idx p ->
  max_steps p = ms /\
  0 <= step_index p /\
  (step_index p = 0 \/ step_index p <= ms) /\
  Z.of_nat (length (memory p)) <= step_index p + 1.
Proof.
  intros Hreach. induction Hreach as [|p w p' w' smp brk _ IH Hstep].
  - unfold init_player. destruct (env_reset e). simpl. repeat split; auto; lia.
  - destruct IH as (Hms & Hpos & _ & Hlen).
    destruct (play_step_effect _ _ _ _ _ _ Hstep)
      as (t & consumed & r & Hmem & _ & _ & Hcfg & _ & Hbrk).
    assert (Hms' : max_steps p' = max_steps p)
      by (unfold configuration in Hcfg; congruence).
    apply (f_equal (@length _)) in Hmem. rewrite !length_app in Hmem.
    simpl in Hmem.
    destruct brk.
    + destruct Hbrk as (_ & Hidx & _ & Hone). rewrite Hidx.
      repeat split; [congruence | lia | auto | lia].
    + destruct Hbrk as (_ & Hidx & Hle). rewrite Hidx.
      repeat split; [congruence | lia | right; lia | lia].
Qed.

(** ** The batch generator *)

Lemma make_batch_some (rows : list Sample) :
  rows <> [] -> exists b, make_batch rows = Some b.
Proof.
  destruct rows as [|r rest]; [contradiction|]. intros _.
  unfold make_batch. destruct (zip_star _) as [[[? ?] ?] ?]. eauto.
Qed.

Lemma emit_no_raise (batch_size : Z) (st : GenState) :
  1 <= batch_size -> emit batch_size st <> Some Raise.
Proof.
  intros Hbs. unfold emit.
  destruct (batch_size <=? _) eqn:Hle; [|discriminate].
  apply Z.leb_le in Hle.
  destruct (slices_nonneg _ (g_samples st) batch_size ltac:(lia)) as [-> _].
  destruct (make_batch_some (firstn (Z.to_nat batch_size) (g_samples st))) as (b & ->).
  - intros He. apply (f_equal (@length _)) in He. rewrite length_firstn in He.
    simpl in He. lia.
  - discriminate.
Qed.

(** X10. With a batch size of at least 1 the assembly of a batch never
    raises: whenever the pool holds at least [batch_size] samples the
    slice is not empty, its four columns unpack, and the generator yields
    the batch made of them with its state unchanged. *)
Theorem batch_assembly_never_raises (batch_size : Z) (st : GenState) :
  1 <= batch_size ->
  batch_size <= Z.of_nat (length (g_samples st)) ->
  exists b,
    emit batch_size st = Some (Yield b st) /\
    b = ((map s_state (firstn (Z.to_nat batch_size) (g_samples st)),
          map s_action (firstn (Z.to_nat batch_size) (g_samples st)),
          map s_advantage (firstn (Z.to_nat batch_size) (g_samples st))),
         (map s_return (firstn (Z.to_nat batch_size) (g_samples st)),
          map s_return (firstn (Z.to_nat batch_size) (g_samples st)))).
Proof.
  intros Hbs Hle. unfold emit.
  apply Z.leb_le in Hle as Hle'. rewrite Hle'.
  destruct (slices_nonneg _ (g_samples st) batch_size ltac:(lia)) as [-> _].
  destruct (make_batch_some (firstn (Z.to_nat batch_size) (g_samples st)))
    as (b & Hb).
  - intros He. apply (f_equal (@length _)) in He. rewrite length_firstn in He.
    simpl in He. lia.
  - rewrite Hb. exists b. split; [reflexivity|].
    now destruct (make_batch_inv _ _ Hb).
Qed.

(** X11. With [batch_size = 0] the first test of the inner loop holds on
    any pool, the slice is empty, and unpacking the empty [zip] raises:
    the generator raises after its first round and yields nothing. *)
Theorem zero_batch_size_raises (fuel : nat) (players : list Player) (w : World) :
  generate_batches (S fuel) players w 0 = Raise.
Proof.
  unfold generate_batches. simpl.
  destruct (play_round players [] w []) as [[[ps w'] pool]|]; [|reflexivity].
  unfold emit. simpl g_samples.
  destruct (0 <=? Z.of_nat (length pool)) eqn:Hle; [reflexivity|].
  apply Z.leb_gt in Hle. lia.
Qed.

Lemma starved_without_players (batch_size : Z) (fuel : nat) :
  forall (w : World) (pool : list Sample),
    Z.of_nat (length pool) < batch_size ->
    gen_rounds fuel batch_size (mkGen (@nil Player) w pool) = Starved.
Proof.
  induction fuel as [|fuel IH]; intros w pool Hlt; simpl; [reflexivity|].
  unfold emit. simpl. apply Z.leb_gt in Hlt as Hlt'. rewrite Hlt'. now apply IH.
Qed.

(** X12. Without players the pool never grows: for a batch size of at
    least 1 the generator goes round after round and never yields. *)
Theorem no_players_no_batches (fuel : nat) (w : World) (batch_size : Z) :
  1 <= batch_size ->
  generate_batches fuel [] w batch_size = Starved.
Proof.
  intros Hbs. unfold generate_batches. apply starved_without_players.
  simpl. lia.
Qed.

Lemma play_step_settled (p : Player) (w : World) (p' : Player) (w' : World)
  (smp : list Sample) (brk : bool) :
  settled p -> play_step p w = Some (p', w', smp, brk) -> settled p'.
Proof.
  intros [Hrs Hlen] Hstep. unfold settled.
  destruct (play_step_memory _ _ _ _ _ _ Hstep)
    as (Hrs' & t & [(_ & Hm & _) | [(_ & Hm & _) | (_ & Hm & _ & Hne)]]);
    rewrite Hrs', Hm; (split; [exact Hrs|]); simpl; try lia.
  rewrite length_app in *. simpl in *. lia.
Qed.

Lemma play_loop_settled (n : nat) :
  forall (p : Player) (w : World) result p' (w' : World) out,
    settled p -> play_loop n p w result = Some (p', w', out) -> settled p'.
Proof.
  induction n as [|n IH]; intros p w result p' w' out Hs; simpl.
  - now intros [= <- _ _].
  - destruct (play_step p w) as [[[[q wq] sq] brk]|] eqn:Hstep; [|discriminate].
    pose proof (play_step_settled _ _ _ _ _ _ Hs Hstep) as Hq.
    destruct brk; [now intros [= <- _ _] | eauto].
Qed.

(** One round keeps the players in place, each with its configuration,
    leaves the weights alone and only appends to the pool. *)
Lemma play_round_effect (todo : list Player) :
  forall played (w : World) pool ps' (w' : World) pool',
    play_round todo played w pool = Some (ps', w', pool') ->
    map configuration ps' = map configuration (played ++ todo) /\
    weights w' = weights w /\
    (Forall settled (played ++ todo) -> Forall settled ps') /\
    exists added, pool' = pool ++ added.
Proof.
  induction todo as [|p rest IH]; intros played w pool ps' w' pool'; simpl.
  - intros [= <- <- <-]. rewrite app_nil_r. repeat split; auto.
    exists []. now rewrite app_nil_r.
  - destruct (play p w 1) as [[[q wq] smp]|] eqn:Hplay; [|discriminate].
    intros Hrest. destruct (IH _ _ _ _ _ _ Hrest) as (Hcfg & Hwt & Hset & added & ->).
    unfold play in Hplay.
    destruct (play_loop_outcome _ _ _ _ _ _ _ Hplay) as (_ & _ & Hq & Hwq & _).
    split; [|split; [congruence|split]].
    + rewrite Hcfg, <- app_assoc, !map_app. simpl. now rewrite Hq.
    + intros HF. apply Hset. rewrite <- app_assoc.
      apply Forall_app in HF as [Hp HF]. apply Forall_cons_iff in HF as [Hsp HF].
      apply Forall_app. split; [exact Hp|]. constructor; [|exact HF].
      exact (play_loop_settled _ _ _ _ _ _ _ Hsp Hplay).
    + exists (smp ++ added). now rewrite app_assoc.
Qed.

Lemma gen_rounds_effect (batch_size : Z) (fuel : nat) :
  forall (st : GenState) (b : Batch) (st' : GenState),
    gen_rounds fuel batch_size st = Yield b st' ->
    map configuration (g_players st') = map configuration (g_players st) /\
    weights (g_world st') = weights (g_world st) /\
    (Forall settled (g_players st) -> Forall settled (g_players st')) /\
    exists added, g_samples st' = g_samples st ++ added.
Proof.
  induction fuel as [|fuel IH]; intros st b st'; simpl; [discriminate|].
  destruct (play_round _ _ _ _) as [[[ps w] pool]|] eqn:Hround; [|discriminate].
  destruct (play_round_effect _ _ _ _ _ _ _ Hround) as (Hcfg & Hwt & Hset & added & Hpool).
  simpl in Hcfg, Hset.
  destruct (emit batch_size (mkGen ps w pool)) as [o|] eqn:Hemit.
  - intros ->. destruct (emit_inv _ _ _ _ Hemit) as (-> & _). simpl. eauto.
  - intros Hy. destruct (IH _ _ _ Hy) as (Hcfg' & Hwt' & Hset' & added' & Hpool').
    simpl in *. split; [congruence|]. split; [congruence|]. split; [auto|].
    exists (added ++ added'). now rewrite Hpool', Hpool, app_assoc.
Qed.

(** X13. Up to any batch it yields, from the start or from a
    resumption, the generator keeps the players in their places with
    their index, horizon, step budget and discount, never touches the
    model's weights, and only appends to the pool: what was pooled, less
    the batch taken on resumption, is still at the front in the same
    order. *)
Theorem generator_keeps_players_and_pool (fuel : nat) (batch_size : Z)
  (st : GenState) (b : Batch) (st' : GenState) :
  (gen_rounds fuel batch_size st = Yield b st' ->
   map configuration (g_players st') = map configuration (g_players st) /\
   weights (g_world st') = weights (g_world st) /\
   exists added, g_samples st' = g_samples st ++ added) /\
  (gen_resume fuel batch_size st = Yield b st' ->
   map configuration (g_players st') = map configuration (g_players st) /\
   weights (g_world st') = weights (g_world st) /\
   exists added,
     g_samples st' = slice_from (g_samples st) batch_size ++ added).
Proof.
  split.
  - intros Hy. destruct (gen_rounds_effect _ _ _ _ _ Hy) as (H1 & H2 & _ & H3). auto.
  - unfold gen_resume. cbv zeta.
    destruct (emit batch_size _) as [o|] eqn:Hemit.
    + intros ->. destruct (emit_inv _ _ _ _ Hemit) as (-> & _). simpl.
      repeat split. exists []. now rewrite app_nil_r.
    + intros Hy. destruct (gen_rounds_effect _ _ _ _ _ Hy) as (H1 & H2 & _ & H3). auto.
Qed.

(** X14. The generator keeps every player's memory within its horizon:
    if all players have [reward_steps >= 1] and at most [reward_steps]
    transitions in memory, the same holds at every batch yielded. *)
Theorem generator_keeps_memories_bounded (fuel : nat) (batch_size : Z)
  (st : GenState) (b : Batch) (st' : GenState) :
  Forall settled (g_players st) ->
  gen_rounds fuel batch_size st = Yield b st' \/
  gen_resume fuel batch_size st = Yield b st' ->
  Forall settled (g_players st').
Proof.
  intros Hs [Hy | Hy].
  - destruct (gen_rounds_effect _ _ _ _ _ Hy) as (_ & _ & H & _). auto.
  - unfold gen_resume in Hy. cbv zeta in Hy.
    destruct (emit batch_size _) as [o|] eqn:Hemit.
    + subst o. destruct (emit_inv _ _ _ _ Hemit) as (-> & _). exact Hs.
    + destruct (gen_rounds_effect _ _ _ _ _ Hy) as (_ & _ & H & _). auto.
Qed.

(** X15. Batches come back to back while the pool lasts.  Let a frame
    be suspended at a yield with a batch size of at least 1.  If its pool
    holds two batches or more, resuming yields the next [batch_size]
    samples at once, with no player advanced and whatever the fuel; if it
    holds less, no batch comes before another round is played. *)
Theorem back_to_back_batches (batch_size : Z) (st : GenState) :
  1 <= batch_size ->
  let n := Z.to_nat batch_size in
  let rest := mkGen (g_players st) (g_world st) (skipn n (g_samples st)) in
  (2 * batch_size <= Z.of_nat (length (g_samples st)) ->
   exists b', make_batch (firstn n (skipn n (g_samples st))) = Some b' /\
              forall fuel, gen_resume fuel batch_size st = Yield b' rest) /\
  (Z.of_nat (length (g_samples st)) < 2 * batch_size ->
   gen_resume 0 batch_size st = Starved).
Proof.
  intros Hbs. cbv zeta.
  destruct (slices_nonneg _ (g_samples st) batch_size ltac:(lia)) as [_ Hfrom].
  assert (Hlen : length (skipn (Z.to_nat batch_size) (g_samples st)) =
                 (length (g_samples st) - Z.to_nat batch_size)%nat)
    by apply length_skipn.
  split.
  - intros H2.
    destruct (make_batch_some
                (firstn (Z.to_nat batch_size) (skipn (Z.to_nat batch_size) (g_samples st))))
      as (b' & Hb).
    { intros He. apply (f_equal (@length _)) in He.
      rewrite length_firstn, Hlen in He. simpl in He. lia. }
    exists b'. split; [exact Hb|]. intros fuel.
    unfold gen_resume, emit. cbv zeta. simpl g_samples. rewrite Hfrom.
    destruct (batch_size <=? _) eqn:Hle; [|apply Z.leb_gt in Hle; lia].
    destruct (slices_nonneg _ (skipn (Z.to_nat batch_size) (g_samples st))
                batch_size ltac:(lia)) as [-> _].
    now rewrite Hb.
  - intros Hlt. unfold gen_resume, emit. cbv zeta. simpl g_samples. rewrite Hfrom.
    destruct (batch_size <=? _) eqn:Hle; [apply Z.leb_le in Hle; lia | reflexivity].
Qed.

(** ** The driver *)

(** X16. The cadence of the training loop: the run model is
    synchronised after every batch; summaries are written on the even
    iterations only; a checkpoint is saved exactly at the positive
    multiples of 3000, so never at iteration 0. *)
Theorem training_schedule (iter_idx : Z) :
  In SyncModel (chores iter_idx) /\
  (In WriteSummaries (chores iter_idx) <-> Z.even iter_idx = true) /\
  (In SaveModel (chores iter_idx) <-> exists k, 1 <= k /\ iter_idx = 3000 * k).
Proof.
  unfold chores, SYNC_MODEL_EVERY_BATCH, SAVE_MODEL_EVERY_BATCH.
  rewrite Z.mod_1_r. simpl (0 =? 0). rewrite Zmod_even.
  split; [|split].
  - apply in_or_app. right. now left.
  - destruct (Z.even iter_idx); simpl.
    + split; auto.
    + split; [|discriminate]. intros [H | H]; [discriminate|].
      destruct ((iter_idx mod 3000 =? 0) && (0 <? iter_idx)); simpl in H;
        [destruct H as [H | []]; discriminate | contradiction].
  - split.
    + intros H. apply in_app_or in H as [H | H].
      { destruct (Z.even iter_idx); simpl in H;
          [destruct H as [H | []]; discriminate | contradiction]. }
      destruct H as [H | H]; [discriminate|].
      destruct ((iter_idx mod 3000 =? 0) && (0 <? iter_idx)) eqn:Hc;
        [|contradiction].
      apply andb_true_iff in Hc as [Hm Hp].
      apply Z.eqb_eq in Hm. apply Z.ltb_lt in Hp.
      exists (iter_idx / 3000).
      pose proof (Z.div_mod iter_idx 3000 ltac:(lia)) as Hd. lia.
    + intros (k & Hk & ->). apply in_or_app. right. right.
      replace (3000 * k) with (k * 3000) by lia.
      rewrite Z.mod_mul by lia. simpl (0 =? 0).
      destruct (0 <? k * 3000) eqn:Hp; [now left|].
      apply Z.ltb_ge in Hp. lia.
Qed.

Lemma init_player_fields (e : Env) (rs : Z) (g : Num) (ms idx : Z) :
  configuration (init_player e rs g ms idx) = (idx, rs, ms, g) /\
  memory (init_player e rs g ms idx) = [].
Proof. unfold init_player. destruct (env_reset e). now split. Qed.

Lemma main_players_fields (envs : Z -> Env) (steps : Z) (g : Num) :
  forall l : list nat,
    map configuration
        (map (fun idx => init_player (envs idx) steps g 40000 idx) (map Z.of_nat l)) =
    map (fun i => (Z.of_nat i, steps, 40000, g)) l /\
    (1 <= steps ->
     Forall settled
       (map (fun idx => init_player (envs idx) steps g 40000 idx) (map Z.of_nat l))).
Proof.
  induction l as [|i l [IH1 IH2]]; simpl; [split; auto|].
  destruct (init_player_fields (envs (Z.of_nat i)) steps g 40000 (Z.of_nat i))
    as [Hc Hm].
  split; [now rewrite Hc, IH1|].
  intros Hs. constructor; [|auto].
  unfold settled. rewrite Hm. unfold configuration in Hc.
  injection Hc as _ -> _ _. simpl. lia.
Qed.

(** X17. The program as configured: with [--steps] at least 1, every
    batch the generator of [__main__] yields first has 128 rows, and at
    that point the fifty players are still in index order 0..49 with the
    horizon, step budget 40000 and discount they were created with, each
    with at most [steps] transitions in memory. *)
Theorem main_first_batch (envs : Z -> Env) (steps : Z) (g : Num) (w : World)
  (fuel : nat) (b : Batch) (st' : GenState) :
  1 <= steps ->
  generate_batches fuel (main_players envs steps g) w BATCH_SIZE = Yield b st' ->
  length (fst (fst (fst b))) = 128%nat /\
  map configuration (g_players st') =
    map (fun i => (Z.of_nat i, steps, 40000, g)) (seq 0 50) /\
  Forall settled (g_players st').
Proof.
  intros Hs Hy. unfold generate_batches in Hy.
  destruct (main_players_fields envs steps g (seq 0 50)) as [Hcfg Hset].
  destruct (gen_rounds_yield _ _ _ _ _ Hy) as (_ & Hle & Hb).
  destruct (gen_rounds_effect _ _ _ _ _ Hy) as (Hc & _ & Hset' & _).
  simpl g_players in Hc, Hset'.
  split; [|split].
  - destruct (make_batch_inv _ _ Hb) as [_ ->]. simpl fst.
    rewrite length_map.
    destruct (slices_nonneg _ (g_samples st') BATCH_SIZE ltac:(unfold BATCH_SIZE; lia))
      as [-> _].
    rewrite length_firstn. unfold BATCH_SIZE in *. lia.
  - rewrite Hc. exact Hcfg.
  - apply Hset'. apply Hset. exact Hs.
Qed.

End A3C_Further.

(** * The theorems at work on the concrete instance *)

Module Concrete.

Import Demo.

Lemma qmul_comm (a b : Q) : nmul a b = nmul b a.
Proof.
  simpl. f_equal. unfold Qmult.
  now rewrite (Z.mul_comm (Qnum a)), (Pos.mul_comm (Qden a)).
Qed.

(** The specification's scenario, terminal: returns 3, 7/2, 11/4 and
    advantages 29/10, 16/5, 9/4, newest first. *)
Example scenario_terminal :
  memory_to_samples scenario_player true =
  Some (set_memory scenario_player [] [true],
        [(2, 2, 3%Q, (29 # 10)%Q); (1, 1, (7 # 2)%Q, (16 # 5)%Q);
         (0, 0, (11 # 4)%Q, (9 # 4)%Q)]).
Proof. reflexivity. Qed.

(** The same segment, non-terminal: the last transition seeds R with its
    value 1/10 and is what the memory keeps. *)
Example scenario_bootstrap :
  memory_to_samples scenario_player false =
  Some (set_memory scenario_player [(2, 2, 3%Q, (1 # 10)%Q)] [false],
        [(1, 1, (41 # 20)%Q, (7 # 4)%Q); (0, 0, (81 # 40)%Q, (61 # 40)%Q)]).
Proof. reflexivity. Qed.

Lemma flush_recurrence_witness :
  scenario <> [] /\
  exists consumed kept seed,
    memory_to_samples scenario_player false =
      Some (set_memory scenario_player kept [false],
            rev (spec_samples (1 # 2)%Q seed consumed)) /\
    scenario = consumed ++ kept /\
    exists last_item, kept = [last_item] /\ seed = t_value last_item.
Proof.
  split; [discriminate|].
  apply (flush_recurrence qmul_comm scenario_player false). discriminate.
Defined.

Lemma flush_sizes_witness :
  (1 <= length scenario)%nat /\
  exists p' samples,
    memory_to_samples scenario_player false = Some (p', samples) /\
    (length samples = (length scenario - 1)%nat /\
     exists body last_item,
       scenario = body ++ [last_item] /\ memory p' = [last_item]) /\
    (forall t, scenario = [t] -> false = false ->
               samples = [] /\ memory p' = [t]).
Proof.
  split; [simpl; lia|].
  apply (flush_sizes scenario_player false). simpl. lia.
Defined.

Lemma flush_order_witness :
  memory_to_samples scenario_player true =
    Some (fst scenario_flushed, snd scenario_flushed) /\
  exists consumed,
    scenario = consumed ++ memory (fst scenario_flushed) /\
    memory (fst scenario_flushed) = [] /\
    Forall2 (fun s t => exists R, s = sample_of t R)
            (snd scenario_flushed) (rev consumed) /\
    (forall body newest, consumed = body ++ [newest] ->
       exists R later, snd scenario_flushed = sample_of newest R :: later) /\
    (forall oldest rest, consumed = oldest :: rest ->
       exists R earlier, snd scenario_flushed = earlier ++ [sample_of oldest R]).
Proof.
  split; [reflexivity|].
  apply (flush_order scenario_player (fst scenario_flushed) true
           (snd scenario_flushed)).
  reflexivity.
Defined.

(** The third step of [at_budget] exceeds the budget of two while the
    environment is not done; the flush keeps the transition of that step,
    so the specification's reading fails there. *)
Lemma truncation_flush_is_not_terminal :
  ~ truncation_flushes_terminal at_budget at_budget_world.
Proof.
  intros H.
  destruct (H (rec_player at_budget at_budget_world)
              (rec_world at_budget at_budget_world)
              (rec_state at_budget at_budget_world)
              (mkPlayer (mkCounter 100 0) 5 (1 # 2)%Q 0 [(2, 0, 1%Q, (1 # 5)%Q)]
                        0%Q 0 2 0 [false])
              (mkWorld tt 3 [(0, 3, 3)])
              [(1, 1, (11 # 10)%Q, 1%Q); (0, 0, (31 # 20)%Q, (31 # 20)%Q)]
              true eq_refl)
    as (_ & Hmem & _).
  - vm_compute. reflexivity.
  - reflexivity.
  - discriminate Hmem.
Qed.

Lemma truncation_flush_bootstraps_witness :
  record_step at_budget at_budget_world =
    (rec_player at_budget at_budget_world, rec_world at_budget at_budget_world,
     rec_state at_budget at_budget_world, false) /\
  max_steps (rec_player at_budget at_budget_world)
    < step_index (rec_player at_budget at_budget_world) /\
  exists t p' w',
    memory (rec_player at_budget at_budget_world) = memory at_budget ++ [t] /\
    play_step at_budget at_budget_world =
      Some (p', w',
            samples_loop (gamma at_budget) (t_value t) (rev (memory at_budget)) [],
            true) /\
    flushed_with at_budget p' false /\
    memory p' = [t].
Proof.
  split; [reflexivity|]. split; [vm_compute; reflexivity|].
  apply (truncation_flush_bootstraps at_budget at_budget_world
           (rec_player at_budget at_budget_world)
           (rec_world at_budget at_budget_world)
           (rec_state at_budget at_budget_world)).
  - reflexivity.
  - vm_compute. reflexivity.
Defined.

Lemma episode_end_resets_and_stops_witness :
  record_step short_lived world0 =
    (rec_player short_lived world0, rec_world short_lived world0,
     rec_state short_lived world0, true) /\
  exists p' w' smp,
    play_step short_lived world0 = Some (p', w', smp, true) /\
    step_index p' = 0 /\
    episode_reward p' = nzero /\
    (state p', env p') = env_reset (env (rec_player short_lived world0)) /\
    forall n result,
      play_loop (S n) short_lived world0 result = Some (p', w', result ++ smp).
Proof.
  split; [reflexivity|].
  apply (episode_end_resets_and_stops short_lived world0
           (rec_player short_lived world0) (rec_world short_lived world0)
           (rec_state short_lived world0) true).
  - reflexivity.
  - left. reflexivity.
Defined.

Lemma one_flush_per_step_witness :
  record_step at_budget at_budget_world =
    (rec_player at_budget at_budget_world, rec_world at_budget at_budget_world,
     rec_state at_budget at_budget_world, false) /\
  exists p' w' smp brk,
    play_step at_budget at_budget_world = Some (p', w', smp, brk) /\
    (length (flush_trace p') <= length (flush_trace at_budget) + 1)%nat /\
    (if false || (max_steps (rec_player at_budget at_budget_world)
                  <? step_index (rec_player at_budget at_budget_world))
     then flushed_with at_budget p' false /\ brk = true
     else if Z.of_nat (length (memory (rec_player at_budget at_budget_world)))
             =? reward_steps (rec_player at_budget at_budget_world) + 1
     then flushed_with at_budget p' false /\ brk = false
     else quiet at_budget p' /\ smp = [] /\ brk = false) /\
    (forall n result,
       play_loop (S n) at_budget at_budget_world result =
       if brk then Some (p', w', result ++ smp)
       else play_loop n p' w' (result ++ smp)).
Proof.
  split; [reflexivity|].
  apply (one_flush_per_step at_budget at_budget_world
           (rec_player at_budget at_budget_world)
           (rec_world at_budget at_budget_world)
           (rec_state at_budget at_budget_world) false).
  reflexivity.
Defined.

(** With [reward_steps = 0] the first step flushes a one-element memory
    and keeps that element; the second step makes it two, which no flush
    condition matches any more. *)
Lemma memory_outgrows_bound :
  reachable (mkCounter 100 0) 0 (1 # 2)%Q 40000 0 (fst (advanced 100 0 40000 2)) /\
  ~ memory_within_bound (fst (advanced 100 0 40000 2)).
Proof.
  split.
  - apply (reachable_play_loop (mkCounter 100 0) 0 (1 # 2)%Q 40000 0 2
             (fresh 100 0 40000) world0 []
             (fst (advanced 100 0 40000 2)) (snd (advanced 100 0 40000 2)) []).
    + apply reach_init.
    + reflexivity.
  - unfold memory_within_bound. vm_compute. intros H. apply H. reflexivity.
Qed.

Lemma memory_bounded_witness :
  1 <= 5 /\
  reachable (mkCounter 100 0) 5 (1 # 2)%Q 40000 0 DemoRuns.five_in /\
  (Z.of_nat (length (memory DemoRuns.five_in)) <= reward_steps DemoRuns.five_in /\
   forall (w : @World unit Z) p1 (w1 : @World unit Z) new_state done p'
          (w' : @World unit Z) smp brk,
     record_step DemoRuns.five_in w = (p1, w1, new_state, done) ->
     play_step DemoRuns.five_in w = Some (p', w', smp, brk) ->
     Z.of_nat (length (memory p1)) <= reward_steps DemoRuns.five_in + 1 /\
     Z.of_nat (length (memory p')) <= reward_steps DemoRuns.five_in + 1) /\
  flushed_with DemoRuns.five_in (fst (fst (fst DemoRuns.sixth_step))) false /\
  exists t,
    memory (rec_player DemoRuns.five_in DemoRuns.five_in_world) =
      memory DemoRuns.five_in ++ [t] /\
    memory (fst (fst (fst DemoRuns.sixth_step))) = [t].
Proof.
  assert (Hreach : reachable (mkCounter 100 0) 5 (1 # 2)%Q 40000 0 DemoRuns.five_in).
  { apply (reachable_play_loop (mkCounter 100 0) 5 (1 # 2)%Q 40000 0 5
             (fresh 100 5 40000) world0 []
             DemoRuns.five_in DemoRuns.five_in_world []).
    - apply reach_init.
    - vm_compute. reflexivity. }
  destruct (memory_bounded (mkCounter 100 0) 5 (1 # 2)%Q 40000 0 DemoRuns.five_in)
    as [Hbound Hflush].
  split; [lia|]. split; [exact Hreach|].
  split; [apply Hbound; [lia | exact Hreach]|].
  split; [vm_compute; reflexivity|].
  apply (Hflush DemoRuns.five_in_world
           (rec_player DemoRuns.five_in DemoRuns.five_in_world)
           (rec_world DemoRuns.five_in DemoRuns.five_in_world)
           (rec_state DemoRuns.five_in DemoRuns.five_in_world) false
           (fst (fst (fst DemoRuns.sixth_step)))
           (snd (fst (fst DemoRuns.sixth_step)))
           (snd (fst DemoRuns.sixth_step)) (snd DemoRuns.sixth_step)).
  - vm_compute. reflexivity.
  - vm_compute. reflexivity.
  - vm_compute. reflexivity.
Defined.

(** With [batch_size = -1] and three samples pooled after the first
    round, the test of the inner loop holds, [samples[:-1]] has two rows
    and the generator yields them: a batch of two samples, not of
    [batch_size]. *)
Lemma negative_batch_size_wrong_rows :
  generate_batches 1 DemoRuns.three_short world0 (-1) =
    Yield (yielded_batch DemoRuns.negative_yield)
          (yielded_state DemoRuns.negative_yield) /\
  length (g_samples (yielded_state DemoRuns.negative_yield)) = 3%nat /\
  length (fst (fst (fst (yielded_batch DemoRuns.negative_yield)))) = 2%nat /\
  Z.of_nat (length (fst (fst (fst (yielded_batch DemoRuns.negative_yield))))) <> -1.
Proof.
  split; [vm_compute; reflexivity|]. split; [vm_compute; reflexivity|].
  split; [vm_compute; reflexivity|]. vm_compute. discriminate.
Qed.

Lemma truncated_transition_carried_over_witness :
  record_step at_budget at_budget_world =
    (rec_player at_budget at_budget_world, rec_world at_budget at_budget_world,
     rec_state at_budget at_budget_world, false) /\
  max_steps (rec_player at_budget at_budget_world)
    < step_index (rec_player at_budget at_budget_world) /\
  exists t p' w' smp,
    memory (rec_player at_budget at_budget_world) = memory at_budget ++ [t] /\
    play_step at_budget at_budget_world = Some (p', w', smp, true) /\
    flushed_with at_budget p' false /\
    memory p' = [t] /\
    step_index p' = 0 /\
    forall q, quiet_steps p' q ->
      (exists later, memory q = t :: later) /\
      forall (wq : @World unit Z) q' (wq' : @World unit Z) smp' brk' is_done,
        play_step q wq = Some (q', wq', smp', brk') ->
        flushed_with q q' is_done ->
        exists R earlier, smp' = earlier ++ [sample_of t R].
Proof.
  split; [reflexivity|]. split; [vm_compute; reflexivity|].
  apply (truncated_transition_carried_over at_budget at_budget_world
           (rec_player at_budget at_budget_world)
           (rec_world at_budget at_budget_world)
           (rec_state at_budget at_budget_world)).
  - reflexivity.
  - vm_compute. reflexivity.
Defined.

Lemma batches_are_fifo_slices_witness :
  0 <= 3 /\
  gen_rounds 5 3 (mkGen two_players world0 []) =
    Yield (yielded_batch first_yield) (yielded_state first_yield) /\
  (exists rows leftover,
     g_samples (yielded_state first_yield) = rows ++ leftover /\
     rows = firstn 3 (g_samples (yielded_state first_yield)) /\
     Z.of_nat (length rows) = 3 /\
     yielded_batch first_yield =
       ((map s_state rows, map s_action rows, map s_advantage rows),
        (map s_return rows, map s_return rows)) /\
     forall fuel',
       gen_resume fuel' 3 (yielded_state first_yield) =
       let rest := mkGen (g_players (yielded_state first_yield))
                         (g_world (yielded_state first_yield)) leftover in
       match emit 3 rest with
       | Some o => o
       | None => gen_rounds fuel' 3 rest
       end) /\
  after_rounds 3 (mkGen two_players world0 []) (yielded_state first_yield).
Proof.
  split; [lia|]. split; [reflexivity|].
  destruct (batches_are_fifo_slices 5 3 (mkGen two_players world0 [])
              (yielded_batch first_yield) (yielded_state first_yield))
    as (Hslice & Hrounds & _).
  - lia.
  - left. reflexivity.
  - split; [exact Hslice | apply Hrounds; reflexivity].
Defined.

Lemma batch_structure_witness :
  gen_rounds 5 3 (mkGen two_players world0 []) =
    Yield (yielded_batch first_yield) (yielded_state first_yield) /\
  exists rows states actions advantages returns,
    rows = slice_to (g_samples (yielded_state first_yield)) 3 /\
    yielded_batch first_yield = ((states, actions, advantages), (returns, returns)) /\
    (length states = length rows /\ length actions = length rows /\
     length advantages = length rows /\ length returns = length rows) /\
    forall i s, nth_error rows i = Some s ->
      nth_error states i = Some (s_state s) /\
      nth_error actions i = Some (s_action s) /\
      nth_error advantages i = Some (s_advantage s) /\
      nth_error returns i = Some (s_return s).
Proof.
  split; [reflexivity|].
  apply (batch_structure 5 3 (mkGen two_players world0 [])
           (yielded_batch first_yield) (yielded_state first_yield)).
  left. reflexivity.
Defined.

(** The first batch of [two_players]: three of the four pooled samples,
    player 0's two first, and the fourth left in the pool. *)
Example first_batch :
  first_yield =
  Yield (([1; 0; 1], [0; 0; 1], [1%Q; (31 # 20)%Q; 1%Q]),
         ([(11 # 10)%Q; (31 # 20)%Q; (11 # 10)%Q],
          [(11 # 10)%Q; (31 # 20)%Q; (11 # 10)%Q]))
        (yielded_state first_yield) /\
  g_samples (yielded_state first_yield) =
    [(1, 0, (11 # 10)%Q, 1%Q); (0, 0, (31 # 20)%Q, (31 # 20)%Q);
     (1, 1, (11 # 10)%Q, 1%Q); (0, 1, (31 # 20)%Q, (31 # 20)%Q)].
Proof. split; reflexivity. Qed.

End Concrete.

(** * The further properties on the concrete instance *)

Module ConcreteFurther.

Import Demo DemoRuns.

Lemma flush_of_recent_part_witness :
  scenario = [(0, 0, 1%Q, (1 # 2)%Q)] ++ [(1, 1, 2%Q, (3 # 10)%Q); (2, 2, 3%Q, (1 # 10)%Q)] /\
  exists q q' s_recent s_old,
    memory_to_samples
      (set_memory scenario_player [(1, 1, 2%Q, (3 # 10)%Q); (2, 2, 3%Q, (1 # 10)%Q)] [])
      true = Some (q, s_recent) /\
    memory_to_samples scenario_player true = Some (q', s_recent ++ s_old) /\
    memory q' = memory q /\
    Forall2 (fun s t => exists R, s = sample_of t R) s_old
            (rev [(0, 0, 1%Q, (1 # 2)%Q)]).
Proof.
  split; [reflexivity|].
  apply (flush_of_recent_part scenario_player true
           [(0, 0, 1%Q, (1 # 2)%Q)]
           [(1, 1, 2%Q, (3 # 10)%Q); (2, 2, 3%Q, (1 # 10)%Q)]).
  - reflexivity.
  - discriminate.
Defined.

Lemma flush_twice_witness :
  memory_to_samples scenario_player true =
    Some (fst scenario_flushed, snd scenario_flushed) /\
  memory_to_samples (fst scenario_flushed) true =
    Some (set_memory (fst scenario_flushed) []
            (flush_trace (fst scenario_flushed) ++ [true]), []) /\
  memory_to_samples (fst scenario_flushed) false = None.
Proof.
  split; [reflexivity|].
  apply (flush_twice scenario_player (fst scenario_flushed) true
           (snd scenario_flushed)).
  reflexivity.
Defined.

Lemma play_step_conserves_transitions_witness :
  play_step at_budget at_budget_world =
    Some (fst (fst (fst budget_step)), snd (fst (fst budget_step)),
          snd (fst budget_step), snd budget_step) /\
  exists t consumed,
    memory at_budget ++ [t] = consumed ++ memory (fst (fst (fst budget_step))) /\
    t_state t = state at_budget /\
    Forall2 (fun s t => exists R, s = sample_of t R)
            (snd (fst budget_step)) (rev consumed).
Proof.
  split; [reflexivity|].
  apply (play_step_conserves_transitions at_budget at_budget_world
           (fst (fst (fst budget_step))) (snd (fst (fst budget_step)))
           (snd (fst budget_step)) (snd budget_step)).
  reflexivity.
Defined.

Lemma play_call_outcome_witness :
  play (fresh 100 5 2) world0 7 =
    Some (fst (fst seven_steps), snd (fst seven_steps), snd seven_steps) /\
  ((log (snd (fst seven_steps)) = log world0 /\
    step_index (fst (fst seven_steps)) = step_index (fresh 100 5 2) + Z.max 0 7 /\
    Z.of_nat (length (snd seven_steps) + length (memory (fst (fst seven_steps)))) =
      Z.of_nat (length (memory (fresh 100 5 2))) + Z.max 0 7) \/
   (exists k r,
      1 <= k <= 7 /\
      log (snd (fst seven_steps)) =
        log world0 ++ [(player_index (fresh 100 5 2), step_index (fresh 100 5 2) + k, r)] /\
      step_index (fst (fst seven_steps)) = 0 /\
      episode_reward (fst (fst seven_steps)) = nzero /\
      Z.of_nat (length (snd seven_steps) + length (memory (fst (fst seven_steps)))) =
        Z.of_nat (length (memory (fresh 100 5 2))) + k)).
Proof.
  split; [reflexivity|].
  apply (play_call_outcome (fresh 100 5 2) world0 7
           (fst (fst seven_steps)) (snd (fst seven_steps)) (snd seven_steps)).
  reflexivity.
Defined.

Lemma play_keeps_configuration_witness :
  play (fresh 100 5 2) world0 7 =
    Some (fst (fst seven_steps), snd (fst seven_steps), snd seven_steps) /\
  player_index (fst (fst seven_steps)) = player_index (fresh 100 5 2) /\
  reward_steps (fst (fst seven_steps)) = reward_steps (fresh 100 5 2) /\
  max_steps (fst (fst seven_steps)) = max_steps (fresh 100 5 2) /\
  gamma (fst (fst seven_steps)) = gamma (fresh 100 5 2) /\
  weights (snd (fst seven_steps)) = weights world0.
Proof.
  split; [reflexivity|].
  apply (play_keeps_configuration (fresh 100 5 2) world0 7
           (fst (fst seven_steps)) (snd (fst seven_steps)) (snd seven_steps)).
  reflexivity.
Defined.

Lemma memory_full_flush_size_witness :
  record_step nearly_full nearly_full_world =
    (rec_player nearly_full nearly_full_world, rec_world nearly_full nearly_full_world,
     rec_state nearly_full nearly_full_world, false) /\
  Z.of_nat (length (memory (rec_player nearly_full nearly_full_world))) =
    reward_steps (rec_player nearly_full nearly_full_world) + 1 /\
  exists p' smp t,
    play_step nearly_full nearly_full_world =
      Some (p', rec_world nearly_full nearly_full_world, smp, false) /\
    Z.of_nat (length smp) = reward_steps nearly_full /\
    memory (rec_player nearly_full nearly_full_world) = memory nearly_full ++ [t] /\
    memory p' = [t] /\
    state p' = rec_state nearly_full nearly_full_world.
Proof.
  split; [reflexivity|]. split; [reflexivity|].
  apply (memory_full_flush_size nearly_full nearly_full_world
           (rec_player nearly_full nearly_full_world)
           (rec_world nearly_full nearly_full_world)
           (rec_state nearly_full nearly_full_world) false).
  - reflexivity.
  - reflexivity.
  - reflexivity.
Defined.

Lemma step_counter_invariant_witness :
  reachable (mkCounter 100 0) 5 (1 # 2)%Q 2 0 at_budget /\
  max_steps at_budget = 2 /\
  0 <= step_index at_budget /\
  (step_index at_budget = 0 \/ step_index at_budget <= 2) /\
  Z.of_nat (length (memory at_budget)) <= step_index at_budget + 1.
Proof.
  assert (Hreach : reachable (mkCounter 100 0) 5 (1 # 2)%Q 2 0 at_budget).
  { apply (reachable_play_loop (mkCounter 100 0) 5 (1 # 2)%Q 2 0 2
             (fresh 100 5 2) world0 [] at_budget at_budget_world []).
    - apply reach_init.
    - vm_compute. reflexivity. }
  split; [exact Hreach|].
  apply (step_counter_invariant (mkCounter 100 0) 5 (1 # 2)%Q 2 0 at_budget).
  exact Hreach.
Defined.


Lemma batch_assembly_never_raises_witness :
  1 <= 3 /\
  3 <= Z.of_nat (length (g_samples (yielded_state first_yield))) /\
  exists b,
    emit 3 (yielded_state first_yield) = Some (Yield b (yielded_state first_yield)) /\
    b = ((map s_state (firstn 3 (g_samples (yielded_state first_yield))),
          map s_action (firstn 3 (g_samples (yielded_state first_yield))),
          map s_advantage (firstn 3 (g_samples (yielded_state first_yield)))),
         (map s_return (firstn 3 (g_samples (yielded_state first_yield))),
          map s_return (firstn 3 (g_samples (yielded_state first_yield))))).
Proof.
  split; [lia|]. split; [vm_compute; discriminate|].
  apply (batch_assembly_never_raises 3 (yielded_state first_yield)).
  - lia.
  - vm_compute. discriminate.
Defined.

Lemma no_players_no_batches_witness :
  1 <= 3 /\ generate_batches 5 (@nil (@Player Q Z Counter)) world0 3 = Starved.
Proof.
  split; [lia|]. apply (no_players_no_batches 5 world0 3). lia.
Defined.

Lemma generator_keeps_memories_bounded_witness :
  Forall settled two_players /\
  gen_rounds 5 3 (mkGen two_players world0 []) =
    Yield (yielded_batch first_yield) (yielded_state first_yield) /\
  Forall settled (g_players (yielded_state first_yield)).
Proof.
  assert (Hs : Forall settled two_players).
  { repeat constructor; vm_compute; discriminate. }
  split; [exact Hs|]. split; [reflexivity|].
  apply (generator_keeps_memories_bounded 5 3 (mkGen two_players world0 [])
           (yielded_batch first_yield) (yielded_state first_yield)).
  - exact Hs.
  - left. reflexivity.
Defined.

Lemma back_to_back_batches_witness :
  1 <= 2 /\
  (2 * 2 <= Z.of_nat (length (g_samples (yielded_state first_yield))) ->
   exists b',
     make_batch (firstn 2 (skipn 2 (g_samples (yielded_state first_yield)))) = Some b' /\
     forall fuel,
       gen_resume fuel 2 (yielded_state first_yield) =
       Yield b' (mkGen (g_players (yielded_state first_yield))
                       (g_world (yielded_state first_yield))
                       (skipn 2 (g_samples (yielded_state first_yield))))) /\
  (Z.of_nat (length (g_samples (yielded_state first_yield))) < 2 * 2 ->
   gen_resume 0 2 (yielded_state first_yield) = Starved).
Proof.
  split; [lia|].
  apply (back_to_back_batches 2 (yielded_state first_yield)). lia.
Defined.

Lemma main_first_batch_witness :
  1 <= 5 /\
  generate_batches 6 demo_main_players world0 BATCH_SIZE =
    Yield (yielded_batch main_yield) (yielded_state main_yield) /\
  length (fst (fst (fst (yielded_batch main_yield)))) = 128%nat /\
  map configuration (g_players (yielded_state main_yield)) =
    map (fun i => (Z.of_nat i, 5, 40000, (1 # 2)%Q)) (seq 0 50) /\
  Forall settled (g_players (yielded_state main_yield)).
Proof.
  split; [lia|].
  assert (Hy : generate_batches 6 demo_main_players world0 BATCH_SIZE =
               Yield (yielded_batch main_yield) (yielded_state main_yield))
    by (vm_compute; reflexivity).
  split; [exact Hy|].
  apply (main_first_batch (fun _ => mkCounter 100 0) 5 (1 # 2)%Q world0 6
           (yielded_batch main_yield) (yielded_state main_yield)).
  - lia.
  - exact Hy.
Defined.

End ConcreteFurther.
